(** * discopy: the PRO of Python functions on tuples ([cartesian.py]) and the
    mapping-or-callable helper ([discopy/utils.py]).

    A shallow embedding of the two modules and the properties claimed about
    them.  Python values are an inductive type, exceptions are an explicit
    error result, [Function], [Box] and [Diagram] are records, and the
    generic diagram and functor machinery of [discopy.rigidcat] (which the two
    modules only import) is modelled where a property needs it. *)

From stdpp Require Import base list gmap strings.
From Stdlib Require Import ZArith Lia.

Set Warnings "-register-all".

(** ** Python values and exceptions *)

(** The values that flow along the wires: integers and (nested) tuples. *)
Inductive value : Type :=
| VInt (z : Z)
| VTuple (xs : list value).

(** [isinstance(v, tuple)] *)
Definition is_tuple (v : value) : bool :=
  match v with
  | VTuple _ => true
  | VInt _ => false
  end.

(** The exceptions the two modules raise or let through. *)
Inductive exn : Type :=
| AxiomError      (* discopy.cat.AxiomError: arities disagree *)
| TypeError       (* wrong operand type, wrong number of positional arguments *)
| KeyError        (* subscript of a dict at a missing key *)
| AttributeError. (* a Box built without a function has no [_function] *)

(** A computation either returns or raises. *)
Inductive outcome (A : Type) : Type :=
| Ok (a : A)
| Raise (e : exn).
Arguments Ok {A} a.
Arguments Raise {A} e.

#[export] Instance outcome_ret : MRet outcome := fun A a => Ok a.
#[export] Instance outcome_bind : MBind outcome := fun A B k m =>
  match m with
  | Ok a => k a
  | Raise e => Raise e
  end.

(** ** [tuplify] and [untuplify] (cartesian.py, lines 43-48) *)

(** [def tuplify(xs): return xs if isinstance(xs, tuple) else (xs, )]
    A tuple is handed back as the list of its components. *)
Definition tuplify (xs : value) : list value :=
  match xs with
  | VTuple l => l
  | _ => [xs]
  end.

(** [def untuplify( *xs): return xs[0] if len(xs) == 1 else xs]
    The argument list is the starred tuple. *)
Definition untuplify (xs : list value) : value :=
  match xs with
  | [x] => x
  | _ => VTuple xs
  end.

(** ** [Function]: Python functions with a domain and a codomain *)

Module Function.

Record t : Type := mk {
  dom : nat;
  cod : nat;
  function : list value → outcome value
}.

(** What [then] and [tensor] can be handed: a [Function] or anything else. *)
Inductive object : Type :=
| Fn (f : t)
| NotFn (v : value).

(** [Function.__call__] *)
Definition call (self : t) (values : list value) : outcome value :=
  if negb (length values =? dom self) then Raise AxiomError
  else function self values.

(** [Function.then] *)
Definition then_ (self : t) (other : object) : outcome t :=
  match other with
  | NotFn _ => Raise TypeError
  | Fn other =>
      if negb (cod self =? dom other) then Raise AxiomError
      else Ok (mk (dom self) (cod other)
                  (λ vals, r ← call self vals; call other (tuplify r)))
  end.

(** [Function.tensor], with its local function [product] *)
Definition product (self other : t) (vals : list value) : outcome value :=
  r0 ← call self (take (dom self) vals);
  let vals0 := tuplify r0 in
  r1 ← call other (drop (dom self) vals);
  let vals1 := tuplify r1 in
  Ok (untuplify (vals0 ++ vals1)).

Definition tensor (self : t) (other : object) : outcome t :=
  match other with
  | NotFn _ => Raise TypeError
  | Fn other =>
      Ok (mk (dom self + dom other) (cod self + cod other)
             (product self other))
  end.

(** [Function.id] *)
Definition id (dom : nat) : t := mk dom dom (λ xs, Ok (untuplify xs)).

End Function.

(** ** [Box] and [Diagram] *)

Module Box.

(** [Box(name, dom, cod, function=None, data=None)].  [function] is [None]
    when the box was built without one: the attribute [_function] is then
    never set and reading the property [function] raises. *)
Record t : Type := mk {
  name : string;
  dom : nat;
  cod : nat;
  function : option (list value → outcome value);
  data : option value
}.

End Box.

Module Diagram.

(** [Diagram(dom, cod, boxes, offsets)]: domain and codomain are [PRO]
    objects, that is natural numbers; offsets are Python integers.  The
    [layers] attribute is computed from [boxes] and [offsets] by the base
    class and is left out. *)
Record t : Type := mk {
  dom : nat;
  cod : nat;
  boxes : list Box.t;
  offsets : list Z
}.

(** [Id(dom)], and [Diagram.id] which returns it (cartesian.py, 178-208) *)
Definition id (x : nat) : t := mk x x [] [].

(** A box is a diagram: [Box.__init__] ends with
    [Diagram.__init__(self, dom, cod, [self], [0])]. *)
Definition of_box (b : Box.t) : t := mk (Box.dom b) (Box.cod b) [b] [0%Z].

(** Modelled from the spec: sequential composition [>>] of the diagram base
    class [discopy.rigidcat.Diagram], which cartesian.py imports.  It fails
    when the codomain arity of the left operand differs from the domain arity
    of the right one; the box sequence of the result is the concatenation of
    both sequences and the offsets of the right operand are unchanged. *)
Definition then_ (self other : t) : outcome t :=
  if negb (cod self =? dom other) then Raise AxiomError
  else Ok (mk (dom self) (cod other)
              (boxes self ++ boxes other) (offsets self ++ offsets other)).

(** Modelled from the spec: parallel composition [@] of the diagram base
    class.  It has no precondition; the offsets of the right-hand diagram are
    shifted by the codomain width of the left one. *)
Definition tensor (self other : t) : t :=
  mk (dom self + dom other) (cod self + cod other)
     (boxes self ++ boxes other)
     (offsets self ++ map (λ n, (n + Z.of_nat (cod self))%Z) (offsets other)).

End Diagram.

(** ** Functors *)

(** The arrow class [ar_cls] a functor builds its images with: it supplies
    identities, [then] and [tensor].  cartesian.py instantiates it with
    [Function] (in [PythonFunctor]) and with [Diagram] (in
    [CartesianFunctor]). *)
Class ArCls (A : Type) : Type := {
  ar_id : nat → A;
  ar_then : A → A → outcome A;
  ar_tensor : A → A → outcome A
}.

#[export] Instance Function_ArCls : ArCls Function.t := {|
  ar_id := Function.id;
  ar_then f g := Function.then_ f (Function.Fn g);
  ar_tensor f g := Function.tensor f (Function.Fn g)
|}.

#[export] Instance Diagram_ArCls : ArCls Diagram.t := {|
  ar_id := Diagram.id;
  ar_then := Diagram.then_;
  ar_tensor f g := Ok (Diagram.tensor f g)
|}.

(** A functor: an object map on arities and an arrow map on boxes, which may
    raise (a dict without the box, a box without a function). *)
Record Functor (A : Type) : Type := mkFunctor {
  ob : nat → nat;
  ar : Box.t → outcome A
}.
Arguments mkFunctor {A} ob ar.
Arguments ob {A} _ _.
Arguments ar {A} _ _.

(** Modelled from the spec: the application of a functor to a diagram, which
    lives in the functor base class [discopy.rigidcat.RigidFunctor].  The
    image is the fold of the arrow map over the box sequence, each box
    tensored with identity arrows on the wires left and right of it, starting
    from the identity on the image of the domain.  [scan] is the width of the
    diagram before the current box. *)
Fixpoint apply_layers {A : Type} `{ArCls A} (F : Functor A) (scan : nat)
    (result : A) (layers : list (Box.t * Z)) : outcome A :=
  match layers with
  | [] => Ok result
  | (box, off) :: layers =>
      let left := Z.to_nat off in
      let right := scan - left - Box.dom box in
      let id_l := ar_id (ob F left) in
      let id_r := ar_id (ob F right) in
      image ← ar F box;
      l ← ar_tensor id_l image;
      layer ← ar_tensor l id_r;
      result ← ar_then result layer;
      apply_layers F (left + Box.cod box + right) result layers
  end.

Definition apply {A : Type} `{ArCls A} (F : Functor A) (diagram : Diagram.t)
    : outcome A :=
  apply_layers F (Diagram.dom diagram) (ar_id (ob F (Diagram.dom diagram)))
    (zip (Diagram.boxes diagram) (Diagram.offsets diagram)).

(** [PythonFunctor(ob, ar)]: [ar_cls=Function] (cartesian.py, 155-160) *)
Definition PythonFunctor (ob : nat → nat) (ar : Box.t → outcome Function.t)
    : Functor Function.t := mkFunctor ob ar.

(** [CartesianFunctor(ob, ar)]: [ar_cls=Diagram] (cartesian.py, 294-306) *)
Definition CartesianFunctor (ob : nat → nat) (ar : Box.t → outcome Diagram.t)
    : Functor Diagram.t := mkFunctor ob ar.

(** [Diagram.__call__] (cartesian.py, 186-194): the arrow map reads the
    property [function] of each box. *)
Definition Diagram_call (self : Diagram.t) (values : list value)
    : outcome value :=
  let ob := λ t : nat, t in
  let ar := λ f : Box.t,
    match Box.function f with
    | Some function => Ok (Function.mk (Box.dom f) (Box.cod f) function)
    | None => Raise AttributeError
    end in
  image ← apply (PythonFunctor ob ar) self;
  Function.call image values.

(** ** The generating boxes (cartesian.py, 327-330) *)

(** [COPY = Box('copy', 1, 2, lambda *x: x + x)] *)
Definition COPY : Box.t :=
  Box.mk "copy" 1 2 (Some (λ x, Ok (VTuple (x ++ x)))) None.

(** [SWAP = Box('swap', 2, 2, lambda x, y: (y, x))]; a lambda of two
    parameters raises [TypeError] on any other number of arguments. *)
Definition SWAP : Box.t :=
  Box.mk "swap" 2 2
    (Some (λ vals, match vals with
                   | [x; y] => Ok (VTuple [y; x])
                   | _ => Raise TypeError
                   end)) None.

(** [DISCARD = Box('discard', 1, 0, lambda *x: ())] *)
Definition DISCARD : Box.t :=
  Box.mk "discard" 1 0 (Some (λ x, Ok (VTuple []))) None.

(** [ADD = Box('add', 2, 1, lambda x, y: x + y)]: [+] adds integers,
    concatenates tuples and raises [TypeError] on an integer and a tuple. *)
Definition ADD : Box.t :=
  Box.mk "add" 2 1
    (Some (λ vals, match vals with
                   | [VInt x; VInt y] => Ok (VInt (x + y))
                   | [VTuple x; VTuple y] => Ok (VTuple (x ++ y))
                   | _ => Raise TypeError
                   end)) None.

(** ** The generators [Swap], [Copy] and [Discard] *)

(** [Swap.__init__(self, left, right)] (cartesian.py, 256-260).  The two
    comprehensions are kept as written: in [offsets] the outer variable is
    [j], over [range(left)], and the inner one is [i], over [range(right)]. *)
Definition Swap (left right : nat) : Diagram.t :=
  let dom := left + right in
  let cod := right + left in
  let boxes :=
    flat_map (λ i, map (λ j, SWAP) (seq 0 right)) (seq 0 left) in
  let offsets :=
    flat_map (λ j, map (λ i, (Z.of_nat left + Z.of_nat i - 1 - Z.of_nat j)%Z)
                       (seq 0 right)) (seq 0 left) in
  Diagram.mk dom cod boxes offsets.

(** A [for] loop whose body may raise. *)
Fixpoint for_each {A S : Type} (xs : list A) (body : S → A → outcome S)
    (s : S) : outcome S :=
  match xs with
  | [] => Ok s
  | x :: xs => s ← body s x; for_each xs body s
  end.

(** [Copy.__init__(self, dom)] (cartesian.py, 269-279) *)
Definition Copy (dom : nat) : outcome Diagram.t :=
  let result := Diagram.id 0 in
  let result :=
    foldl (λ result i, Diagram.tensor result (Diagram.of_box COPY))
          result (seq 0 dom) in
  result ← for_each (seq 1 (dom - 1)) (λ result i,
    let swaps := Diagram.id 0 in
    let swaps :=
      foldl (λ swaps j, Diagram.tensor swaps (Diagram.of_box SWAP))
            swaps (seq 0 (dom - i)) in
    Diagram.then_ result
      (Diagram.tensor (Diagram.tensor (Diagram.id i) swaps) (Diagram.id i)))
    result;
  Ok (Diagram.mk dom (2 * dom) (Diagram.boxes result) (Diagram.offsets result)).

(** A positional argument of a constructor call: the instance under
    construction, which Python passes first, or an integer. *)
Inductive pyarg : Type :=
| ArgSelf
| ArgInt (n : Z).

(** The loop of [Discard.__init__] (cartesian.py, 287-289), for an integer
    [dom]. *)
Definition Discard_loop (dom : nat) : Diagram.t :=
  foldl (λ result i, Diagram.tensor result (Diagram.of_box DISCARD))
        (Diagram.id 0) (seq 0 dom).

(** [Discard.__init__(dom)] (cartesian.py, 286-291).  The method declares one
    parameter, [dom], and no [self]: it raises [TypeError] on any other number
    of positional arguments.  With one argument, [dom] is that argument: on
    the instance [range(dom)] raises [TypeError]; on an integer the loop runs
    and the argument-less [super()] then raises [TypeError], its first
    argument being no instance of the class. *)
Definition Discard_init (args : list pyarg) : outcome Diagram.t :=
  match args with
  | [dom] =>
      match dom with
      | ArgSelf => Raise TypeError
      | ArgInt n => let result := Discard_loop (Z.to_nat n) in Raise TypeError
      end
  | _ => Raise TypeError
  end.

(** [Discard(n)]: Python creates the instance and calls
    [__init__(instance, n)]. *)
Definition Discard (n : Z) : outcome Diagram.t :=
  Discard_init [ArgSelf; ArgInt n].

(** ** [MappingOrCallable] (discopy/utils.py, 20-49) *)

Module MappingOrCallable.

Section defs.
Context {K U V : Type} `{Countable K}.

(** An object used as an item: hashable, and so a possible dict key (of
    type [K]), or not hashable (of type [U], a list for instance). *)
Inductive item : Type :=
| Hashable (k : K)
| Unhashable (u : U).

(** What the constructor is given: a dict or a function. *)
Inductive mapping_t : Type :=
| Mapping (m : gmap K V)
| Callable (f : item → outcome V).

Record t : Type := mk {
  mapping : mapping_t;
  _inner_mapping : gmap K V
}.

(** [__init__], on a dict or a function *)
Definition init (mapping : mapping_t) : t := mk mapping ∅.

(** [__getitem__]; subscripting a dict raises [KeyError] at a missing key and
    [TypeError] at an unhashable one. *)
Definition getitem (self : t) (item : item) : outcome V :=
  match mapping self with
  | Mapping m =>
      match item with
      | Hashable k =>
          match m !! k with
          | Some v => Ok v
          | None => Raise KeyError
          end
      | Unhashable _ => Raise TypeError
      end
  | Callable f =>
      match item with
      | Hashable k =>
          match _inner_mapping self !! k with
          | Some v => Ok v
          | None => f item
          end
      | Unhashable _ => f item
      end
  end.

(** [__setitem__]: a dict has a [__setitem__], a function has none; storing
    under an unhashable key raises [TypeError] in both dicts. *)
Definition setitem (self : t) (key : item) (value : V) : outcome t :=
  match key with
  | Unhashable _ => Raise TypeError
  | Hashable k =>
      match mapping self with
      | Mapping m => Ok (mk (Mapping (<[k := value]> m)) (_inner_mapping self))
      | Callable f => Ok (mk (Callable f) (<[k := value]> (_inner_mapping self)))
      end
  end.

End defs.

Arguments item : clear implicits.
Arguments mapping_t K U V {_ _}.
Arguments t K U V {_ _}.

(** [then] (discopy/utils.py, 59-71).  The values of [self] are the items
    handed to [other], a dict or a function; they are taken hashable.  On a
    function the result holds a lambda that calls [self]: it is [self] as it
    is when [then] is called, entries stored in it later are not followed. *)
Section then_defs.
Context {K U V W : Type} `{Countable K} `{Countable V}.

(** The order in which a dict is iterated, its insertion order, which a
    finite map does not record: [items m] lists the entries of [m] in that
    order. *)
Variable items : gmap K V → list (K * V).

(** The local function [access_other] *)
Definition access_other (other : mapping_t V U W) (x : V) : outcome W :=
  match other with
  | Mapping m =>
      match m !! x with
      | Some w => Ok w
      | None => Raise KeyError
      end
  | Callable g => g (Hashable x)
  end.

(** [{x: access_other(y) for x, y in d.items()}]: the entries are visited in
    order and the first exception ends the comprehension. *)
Definition comprehension (other : mapping_t V U W) (kvs : list (K * V))
    : outcome (gmap K W) :=
  for_each kvs (λ d kv, w ← access_other other kv.2; Ok (<[kv.1 := w]> d)) ∅.

Definition then_ (self : t K U V) (other : mapping_t V U W)
    : outcome (t K U W) :=
  ret ← match mapping self with
        | Mapping m =>
            d ← comprehension other (items m); Ok (init (Mapping d))
        | Callable _ =>
            Ok (init (Callable (λ x, y ← getitem self x; access_other other y)))
        end;
  inner ← comprehension other (items (_inner_mapping self));
  Ok (mk (mapping ret) inner).

End then_defs.

End MappingOrCallable.

(** ** [product] (discopy/utils.py, 74-83) *)

Section product_defs.
Context {A B : Type}.

(** The operator [*] between the unit and an element of the list; it may
    raise. *)
Variable mul : A → B → outcome A.

(** [return unit if not xs else product(xs[1:], unit * xs[0])]; the bound
    of the interpreter on the depth of the recursion is left out. *)
Fixpoint product (xs : list B) (unit : A) : outcome A :=
  match xs with
  | [] => Ok unit
  | x :: xs => u ← mul unit x; product xs u
  end.

End product_defs.

(** [*] on two integers. *)
Definition int_mul (a b : Z) : outcome Z := Ok (a * b)%Z.

(** [*] on a list and an integer: the list repeated, empty when the integer
    is not positive. *)
Definition list_mul {A : Type} (l : list A) (n : Z) : outcome (list A) :=
  Ok (concat (replicate (Z.to_nat n) l)).

(** ** [rmap] (discopy/utils.py, 197-211) *)

(** Nested data: dicts (their entries in insertion order, under string
    keys), lists and tuples, with integers, which are not iterable, at the
    leaves.  Strings, on which the function does not terminate, and sets are
    left out. *)
Inductive data : Type :=
| DInt (z : Z)
| DList (xs : list data)
| DTuple (xs : list data)
| DDict (kvs : list (string * data)).

(** [rmap(func, data)]: the comprehensions visit the entries and the
    elements in order, and the first exception ends the call. *)
Fixpoint rmap (func : Z → outcome data) (d : data) : outcome data :=
  match d with
  | DDict kvs =>
      kvs ← mapM (λ kv, value ← rmap func kv.2; Ok (kv.1, value)) kvs;
      Ok (DDict kvs)
  | DList xs => xs ← mapM (rmap func) xs; Ok (DList xs)
  | DTuple xs => xs ← mapM (rmap func) xs; Ok (DTuple xs)
  | DInt z => func z
  end.

(** * Properties *)

(** ** Valid tuples, well typed arrows, well formed diagrams *)

(** A tuple of scalars: no component is itself a tuple. *)
Definition scalars (xs : list value) : Prop :=
  Forall (λ x, is_tuple x = false) xs.

(** The result of a call, as the tuple that [then] and [tensor] make of it. *)
Definition run (f : Function.t) (xs : list value) : outcome (list value) :=
  r ← Function.call f xs; Ok (tuplify r).

(** A [Function] respects its codomain: called on a tuple of scalars of the
    length of its domain it raises, or returns scalars, as many as its
    codomain says (one scalar may come bare or as a tuple of length one). *)
Definition well_typed (f : Function.t) : Prop :=
  ∀ xs, length xs = Function.dom f → scalars xs →
    match Function.call f xs with
    | Ok r => length (tuplify r) = Function.cod f ∧ scalars (tuplify r)
    | Raise _ => True
    end.

(** A [Function] that never returns a tuple of length one. *)
Definition normal (f : Function.t) : Prop :=
  ∀ xs, length xs = Function.dom f → scalars xs →
    match Function.call f xs with
    | Ok r => r = untuplify (tuplify r)
    | Raise _ => True
    end.

(** The width of a diagram after each of its boxes, as [apply_layers] scans
    it; [None] when a box has a negative offset or does not fit in the
    current width. *)
Fixpoint widths (scan : nat) (layers : list (Box.t * Z)) : option nat :=
  match layers with
  | [] => Some scan
  | (box, off) :: layers =>
      let left := Z.to_nat off in
      let right := scan - left - Box.dom box in
      if (0 <=? off)%Z && (left + Box.dom box <=? scan)
      then widths (left + Box.cod box + right) layers
      else None
  end.

(** The invariant of a diagram: as many offsets as boxes, every box fits,
    and the last width is the codomain. *)
Definition well_formed (d : Diagram.t) : Prop :=
  length (Diagram.boxes d) = length (Diagram.offsets d) ∧
  widths (Diagram.dom d) (zip (Diagram.boxes d) (Diagram.offsets d))
  = Some (Diagram.cod d).

(** The monoidal functor law for the object map. *)
Definition monoidal (ob : nat → nat) : Prop :=
  ob 0 = 0 ∧ ∀ a b, ob (a + b) = ob a + ob b.

(** The arrow map of a functor into [Function] is valid at a box: the image
    exists, its domain and codomain are the images of those of the box, and
    it respects its codomain. *)
Definition valid_at (F : Functor Function.t) (box : Box.t) : Prop :=
  ∃ f, ar F box = Ok f ∧
       Function.dom f = ob F (Box.dom box) ∧
       Function.cod f = ob F (Box.cod box) ∧
       well_typed f.

(** What the image of a sequence of layers computes on a tuple: each box in
    turn rewrites the segment of the tuple it sits on. *)
Fixpoint den (F : Functor Function.t) (layers : list (Box.t * Z))
    (xs : list value) : outcome (list value) :=
  match layers with
  | [] => Ok xs
  | (box, off) :: layers =>
      let l := ob F (Z.to_nat off) in
      let m := ob F (Box.dom box) in
      f ← ar F box;
      ys ← run f (take m (drop l xs));
      den F layers (take l xs ++ ys ++ drop (l + m) xs)
  end.

(** The layers of the right operand of a tensor: offsets moved by [k]. *)
Definition shift (k : nat) (layers : list (Box.t * Z)) : list (Box.t * Z) :=
  map (λ p, (p.1, (p.2 + Z.of_nat k)%Z)) layers.

(** The arrow map of a functor into [Diagram] is valid at a box: the image
    exists and goes from the image of the domain of the box to the image of
    its codomain. *)
Definition valid_image (F : Functor Diagram.t) (box : Box.t) : Prop :=
  ∃ X, ar F box = Ok X ∧
       Diagram.dom X = ob F (Box.dom box) ∧
       Diagram.cod X = ob F (Box.cod box).

(** The functor that [Diagram.__call__] builds (cartesian.py, 191-194). *)
Definition call_functor : Functor Function.t :=
  PythonFunctor (λ t, t)
    (λ f, match Box.function f with
          | Some function => Ok (Function.mk (Box.dom f) (Box.cod f) function)
          | None => Raise AttributeError
          end).

(** A row of [k] copies of a box side by side, each [w] wires after the
    other, as layers. *)
Definition row (b : Box.t) (w k : nat) : list (Box.t * Z) :=
  map (λ j, (b, Z.of_nat (j * w))) (seq 0 k).

(** The layers of [Copy(n)] in closed form: a row of [n] boxes [COPY], then
    for [i] from [1] to [n - 1] a row of [n - i] boxes [SWAP] behind [i]
    wires. *)
Definition Copy_layers (n : nat) : list (Box.t * Z) :=
  row COPY 2 n ++ flat_map (λ i, shift i (row SWAP 2 (n - i))) (seq 1 (n - 1)).

(** Two tuples of the same length, interleaved. *)
Definition interleave (xs ys : list value) : list value :=
  flat_map (λ p, [p.1; p.2]) (zip xs ys).

(** The tuple between the layers of [Copy(n)] called on [xs]: before the
    layer [i] of the second loop, the first [i] and the last [i] values are
    in place and the middle pairs the value [k] with the value [k + i]. *)
Definition Copy_state (xs : list value) (i : nat) : list value :=
  take i xs
  ++ interleave (take (length xs - i) xs) (drop i xs)
  ++ drop (length xs - i) xs.

(** Two computations end alike up to [R]: both return, with related values,
    or both raise the same exception. *)
Definition alike {A : Type} (R : A → A → Prop) (o o' : outcome A) : Prop :=
  match o, o' with
  | Ok a, Ok a' => R a a'
  | Raise e, Raise e' => e = e'
  | _, _ => False
  end.


(** Two arrows that return the same values. *)
Definition same_calls (f f' : Function.t) : Prop :=
  Function.dom f = Function.dom f' ∧ Function.cod f = Function.cod f' ∧
  ∀ xs, Function.call f xs = Function.call f' xs.


(** A tuple of length one. *)
Definition singleton_tuple (r : value) : bool :=
  match r with
  | VTuple [_] => true
  | _ => false
  end.

(** ** The statements that the code does not meet, as worded *)

(** The offset formula as the specification words it: [left + i - 1 - j] for
    the pair [(i, j)] with [i] below [left] and [j] below [right]. *)
Definition Swap_offset_as_specified (left right : nat) : Prop :=
  ∀ i j, i < left → j < right →
    Diagram.offsets (Swap left right) !! (i * right + j)
    = Some (Z.of_nat left + Z.of_nat i - 1 - Z.of_nat j)%Z.


(** A box of one wire whose function tells an integer from a tuple:
    [Box('probe', 1, 1, lambda x: 0 if isinstance(x, tuple) else 1)]. *)
Definition probe : Box.t :=
  Box.mk "probe" 1 1
    (Some (λ vals, match vals with
                   | [x] => Ok (VInt (if is_tuple x then 0 else 1))
                   | _ => Raise TypeError
                   end)) None.

(** Functoriality as the specification words it, for functors into
    [Function]: the two equations hold on every input tuple that is valid,
    which the specification defines by its length alone. *)
Definition functoriality_as_specified : Prop :=
  ∀ (ob : nat → nat) (ar : Box.t → outcome Function.t) (d1 d2 : Diagram.t),
    let F := PythonFunctor ob ar in
    monoidal ob → well_formed d1 → well_formed d2 →
    Forall (valid_at F) (Diagram.boxes d1) →
    Forall (valid_at F) (Diagram.boxes d2) →
    (Diagram.cod d1 = Diagram.dom d2 →
     ∀ d h h1 h2 h',
       Diagram.then_ d1 d2 = Ok d → apply F d = Ok h →
       apply F d1 = Ok h1 → apply F d2 = Ok h2 →
       Function.then_ h1 (Function.Fn h2) = Ok h' →
       ∀ xs, length xs = ob (Diagram.dom d1) →
         Function.call h xs = Function.call h' xs) ∧
    (∀ h h1 h2 h',
       apply F (Diagram.tensor d1 d2) = Ok h →
       apply F d1 = Ok h1 → apply F d2 = Ok h2 →
       Function.tensor h1 (Function.Fn h2) = Ok h' →
       ∀ xs, length xs = ob (Diagram.dom d1 + Diagram.dom d2) →
         Function.call h xs = Function.call h' xs).

(** How deep the tuples of a value nest. *)
Fixpoint depth (v : value) : nat :=
  match v with
  | VInt _ => 0
  | VTuple xs => S (foldr (λ x n, depth x + n) 0 xs)
  end.

(** The layers of [Swap(left, right)]: the boxes of the first comprehension
    paired with the offsets of the second. *)
Definition Swap_layers (left right : nat) : list (Box.t * Z) :=
  flat_map (λ a, map (λ b, (SWAP, (Z.of_nat left + Z.of_nat b - 1 - Z.of_nat a)%Z))
                     (seq 0 right)) (seq 0 left).

(** A box [SWAP] on each of the [k] positions from [p] on, left to right: it
    carries the value at [p] over the [k] values after it. *)
Definition slide (p k : nat) : list (Box.t * Z) :=
  map (λ b, (SWAP, Z.of_nat (p + b))) (seq 0 k).

(** The integers at the leaves of nested data, in the order in which [rmap]
    visits them. *)
Fixpoint leaves (d : data) : list Z :=
  match d with
  | DInt z => [z]
  | DList xs => flat_map leaves xs
  | DTuple xs => flat_map leaves xs
  | DDict kvs => flat_map (λ kv, leaves kv.2) kvs
  end.

(** ** Elementary facts on [tuplify] and [untuplify] *)

Lemma tuplify_scalar (x : value) : is_tuple x = false → tuplify x = [x].
Proof. by destruct x. Qed.


Lemma tuplify_untuplify (xs : list value) :
  Forall (λ x, is_tuple x = false) xs → tuplify (untuplify xs) = xs.
Proof.
  destruct xs as [|x [|y xs]]; simpl; try done.
  intros H. apply Forall_cons in H as [Hx _]. by apply tuplify_scalar.
Qed.

(** ** The error monad *)

Lemma bind_Ok {A B : Type} (a : A) (k : A → outcome B) : (x ← Ok a; k x) = k a.
Proof. reflexivity. Qed.

Lemma bind_ret {A : Type} (m : outcome A) : (x ← m; Ok x) = m.
Proof. by destruct m. Qed.

Lemma bind_assoc {A B C : Type} (m : outcome A) (k : A → outcome B)
    (k' : B → outcome C) :
  (y ← (x ← m; k x); k' y) = (x ← m; y ← k x; k' y).
Proof. by destruct m. Qed.

Lemma bind_ext {A B : Type} (m : outcome A) (k k' : A → outcome B) :
  (∀ a, m = Ok a → k a = k' a) → (x ← m; k x) = (x ← m; k' x).
Proof. destruct m as [a|e]; intros Hk; simpl; [by apply Hk|done]. Qed.

(** ** [Function]: call, [then] and identity *)

Lemma call_eq (f : Function.t) (values : list value) :
  length values = Function.dom f →
  Function.call f values = Function.function f values.
Proof.
  intros Hlen. unfold Function.call.
  by rewrite (proj2 (Nat.eqb_eq _ _) Hlen).
Qed.

Lemma call_arity_error (f : Function.t) (values : list value) :
  length values ≠ Function.dom f → Function.call f values = Raise AxiomError.
Proof.
  intros Hlen. unfold Function.call.
  by rewrite (proj2 (Nat.eqb_neq _ _) Hlen).
Qed.

(** C7: calling a [Function] on a tuple whose length differs from the arity
    of its domain raises the arity error [AxiomError]; on a tuple of the
    right length the call returns what the wrapped function returns.  The
    identity on one wire, called on [(1, 2)], raises the arity error. *)
Theorem Function_call_contract (f : Function.t) (values : list value) :
  (length values ≠ Function.dom f →
     Function.call f values = Raise AxiomError) ∧
  (length values = Function.dom f →
     Function.call f values = Function.function f values) ∧
  Function.call (Function.id 1) [VInt 1; VInt 2] = Raise AxiomError.
Proof.
  split; [apply call_arity_error|]. split; [apply call_eq|]. reflexivity.
Qed.

Lemma Function_call_contract_witness :
  Function.call (Function.id 2) [VInt 1; VInt 2] = Ok (VTuple [VInt 1; VInt 2]) ∧
  Function.call (Function.id 3) [VInt 1; VInt 2] = Raise AxiomError.
Proof.
  split.
  - pose proof (Function_call_contract (Function.id 2) [VInt 1; VInt 2])
      as (_ & Hok & _).
    rewrite Hok; reflexivity.
  - pose proof (Function_call_contract (Function.id 3) [VInt 1; VInt 2])
      as (Herr & _).
    apply Herr. simpl. lia.
Defined.

Lemma then_Fn_ok (f g : Function.t) :
  Function.cod f = Function.dom g →
  Function.then_ f (Function.Fn g) =
    Ok (Function.mk (Function.dom f) (Function.cod g)
          (λ vals, r ← Function.call f vals; Function.call g (tuplify r))).
Proof.
  intros Hcod. unfold Function.then_.
  by rewrite (proj2 (Nat.eqb_eq _ _) Hcod).
Qed.

(** The composite may be called on a tuple of any length: a tuple of the
    wrong length already makes the first arrow raise the arity error. *)
Lemma call_then (f g : Function.t) (vals : list value) :
  Function.call
    (Function.mk (Function.dom f) (Function.cod g)
       (λ vals, r ← Function.call f vals; Function.call g (tuplify r))) vals
  = (r ← Function.call f vals; Function.call g (tuplify r)).
Proof.
  unfold Function.call at 1. simpl.
  destruct (length vals =? Function.dom f) eqn:E; simpl; [done|].
  apply Nat.eqb_neq in E. by rewrite (call_arity_error f vals E).
Qed.



(** ** The generator [Swap] *)

(** A comprehension [[f a b for a in range(l) for b in range(r)]] holds
    [f a b] at index [a * r + b]. *)
Lemma comprehension_lookup {A : Type} (f : nat → nat → A) (r l s a b : nat) :
  a < l → b < r →
  flat_map (λ a, map (f a) (seq 0 r)) (seq s l) !! (a * r + b)
  = Some (f (s + a) b).
Proof.
  revert s a. induction l as [|l IH]; intros s a Ha Hb; [lia|].
  simpl. destruct a as [|a].
  - rewrite lookup_app_l; [|by rewrite length_map, length_seq].
    rewrite list_lookup_fmap, lookup_seq_lt by done.
    simpl. by rewrite Nat.add_0_r.
  - rewrite lookup_app_r; rewrite length_map, length_seq; [|lia].
    replace (S a * r + b - r) with (a * r + b) by lia.
    rewrite IH by lia. by replace (S s + a) with (s + S a) by lia.
Qed.

Lemma comprehension_length {A : Type} (f : nat → nat → A) (r l s : nat) :
  length (flat_map (λ a, map (f a) (seq 0 r)) (seq s l)) = l * r.
Proof.
  revert s. induction l as [|l IH]; intros s; [done|].
  simpl. by rewrite length_app, length_map, length_seq, IH.
Qed.

Lemma comprehension_Forall {A : Type} (P : A → Prop) (f : nat → nat → A)
    (r l s : nat) :
  (∀ a b, P (f a b)) →
  Forall P (flat_map (λ a, map (f a) (seq 0 r)) (seq s l)).
Proof.
  intros HP. revert s. induction l as [|l IH]; intros s; simpl; [done|].
  apply Forall_app. split; [|apply IH].
  apply Forall_fmap, Forall_forall. intros; apply HP.
Qed.

(** C2, as the code has it: [Swap(left, right)] goes from arity
    [left + right] to arity [right + left] and consists of [left * right]
    boxes, all of them [SWAP]; the box of the pair [(i, j)], with [i] below
    [left] and [j] below [right], stands at index [i * right + j] and its
    offset is [left + j - 1 - i]. *)
Theorem Swap_shape (left right : nat) :
  Diagram.dom (Swap left right) = left + right ∧
  Diagram.cod (Swap left right) = right + left ∧
  length (Diagram.boxes (Swap left right)) = left * right ∧
  length (Diagram.offsets (Swap left right)) = left * right ∧
  Forall (λ b, b = SWAP) (Diagram.boxes (Swap left right)) ∧
  ∀ i j, i < left → j < right →
    Diagram.boxes (Swap left right) !! (i * right + j) = Some SWAP ∧
    Diagram.offsets (Swap left right) !! (i * right + j)
    = Some (Z.of_nat left + Z.of_nat j - 1 - Z.of_nat i)%Z.
Proof.
  unfold Swap; simpl. repeat split.
  - apply comprehension_length.
  - apply (comprehension_length
             (λ j i, (Z.of_nat left + Z.of_nat i - 1 - Z.of_nat j)%Z)).
  - by apply (comprehension_Forall _ (λ _ _, SWAP)).
  - by rewrite (comprehension_lookup (λ _ _, SWAP)).
  - by rewrite (comprehension_lookup
             (λ j i, (Z.of_nat left + Z.of_nat i - 1 - Z.of_nat j)%Z)).
Qed.

Lemma Swap_shape_witness :
  Diagram.offsets (Swap 2 3) !! (0 * 3 + 2) = Some 3%Z.
Proof.
  pose proof (Swap_shape 2 3) as (_ & _ & _ & _ & _ & Hpair).
  destruct (Hpair 0 2) as [_ Hoff]; [lia | lia |].
  exact Hoff.
Defined.

(** C2, counterexample: in [Swap(2, 3)] the formula of the specification
    gives the pair [(0, 2)] the offset [-1]; the box of that pair has offset
    [3], and no box of the diagram has offset [-1]. *)
Lemma Swap_offset_as_specified_fails :
  ¬ Swap_offset_as_specified 2 3 ∧
  Diagram.offsets (Swap 2 3) = [1; 2; 3; 0; 1; 2]%Z ∧
  (-1)%Z ∉ Diagram.offsets (Swap 2 3).
Proof.
  split; [|split].
  - intros Hspec. specialize (Hspec 0 2). simpl in Hspec.
    assert (Some 3%Z = Some (-1)%Z) as Heq by (apply Hspec; lia).
    discriminate Heq.
  - reflexivity.
  - simpl. intros Hin. repeat (apply elem_of_cons in Hin as [Hin|Hin]; [lia|]).
    by apply elem_of_nil in Hin.
Qed.

(** C5: [Swap(2, 3)] called on [(0, 1, 2, 3, 4)] returns [(2, 3, 4, 0, 1)]. *)
Theorem Swap_2_3_call :
  Diagram_call (Swap 2 3) (map VInt [0; 1; 2; 3; 4]%Z)
  = Ok (VTuple (map VInt [2; 3; 4; 0; 1]%Z)).
Proof. vm_compute. reflexivity. Qed.

(** ** The generator [Discard] *)

Lemma Discard_loop_shape (n : nat) :
  Diagram.dom (Discard_loop n) = n ∧
  Diagram.cod (Discard_loop n) = 0 ∧
  Diagram.boxes (Discard_loop n) = replicate n DISCARD ∧
  Diagram.offsets (Discard_loop n) = replicate n 0%Z.
Proof.
  unfold Discard_loop.
  assert (∀ k s d,
    Diagram.cod d = 0 →
    let r := foldl (λ result i, Diagram.tensor result (Diagram.of_box DISCARD))
               d (seq s k) in
    Diagram.dom r = Diagram.dom d + k ∧ Diagram.cod r = 0 ∧
    Diagram.boxes r = Diagram.boxes d ++ replicate k DISCARD ∧
    Diagram.offsets r = Diagram.offsets d ++ replicate k 0%Z) as Hloop.
  { induction k as [|k IH]; intros s d Hd; simpl.
    - by rewrite Nat.add_0_r, !app_nil_r.
    - destruct (IH (S s) (Diagram.tensor d (Diagram.of_box DISCARD)))
        as (E1 & E2 & E3 & E4); [simpl; lia|].
      rewrite E1, E2, E3, E4. simpl. rewrite Hd, <- !app_assoc. simpl.
      repeat split; try done. lia. }
  destruct (Hloop n 0 (Diagram.id 0) eq_refl) as (E1 & E2 & E3 & E4).
  by rewrite E1, E2, E3, E4.
Qed.

(** C3, what the code does: [Discard(n)] raises [TypeError] for every [n],
    and so does [__init__] on every argument list, since the method is
    declared without [self].  The loop in its body would build the tensor of
    [n] boxes [DISCARD], from arity [n] to arity [0], which called on
    [(0, 1, 2)] for [n = 3] returns [()]. *)
Theorem Discard_raises :
  (∀ n, Discard n = Raise TypeError) ∧
  (∀ args, Discard_init args = Raise TypeError) ∧
  (∀ n, Diagram.dom (Discard_loop n) = n ∧ Diagram.cod (Discard_loop n) = 0 ∧
        Diagram.boxes (Discard_loop n) = replicate n DISCARD) ∧
  Diagram_call (Discard_loop 3) (map VInt [0; 1; 2]%Z) = Ok (VTuple []).
Proof.
  split; [done|]. split.
  - intros [|[|n] [|b args]]; reflexivity.
  - split; [|reflexivity].
    intros n. destruct (Discard_loop_shape n) as (? & ? & ? & ?). done.
Qed.

(** ** Identity diagrams *)

Lemma then_ok (d1 d2 : Diagram.t) :
  Diagram.cod d1 = Diagram.dom d2 →
  Diagram.then_ d1 d2 =
    Ok (Diagram.mk (Diagram.dom d1) (Diagram.cod d2)
          (Diagram.boxes d1 ++ Diagram.boxes d2)
          (Diagram.offsets d1 ++ Diagram.offsets d2)).
Proof.
  intros Hcod. unfold Diagram.then_.
  by rewrite (proj2 (Nat.eqb_eq _ _) Hcod).
Qed.

Lemma shift_0 (offsets : list Z) : map (λ n, (n + Z.of_nat 0)%Z) offsets = offsets.
Proof.
  induction offsets as [|o os IH]; simpl; [done|].
  by rewrite IH, Z.add_0_r.
Qed.

(** C8: the identity diagram of the matching arity is neutral for [then] on
    both sides, and [Id(0)] is neutral for [tensor] on both sides; tensoring
    with [Id(m)] for a positive [m] never gives the diagram back, since the
    domain grows by [m]. *)
Theorem Id_neutral (d : Diagram.t) :
  Diagram.then_ (Diagram.id (Diagram.dom d)) d = Ok d ∧
  Diagram.then_ d (Diagram.id (Diagram.cod d)) = Ok d ∧
  Diagram.tensor (Diagram.id 0) d = d ∧
  Diagram.tensor d (Diagram.id 0) = d ∧
  ∀ m, 0 < m →
    Diagram.dom (Diagram.tensor (Diagram.id m) d) ≠ Diagram.dom d ∧
    Diagram.tensor (Diagram.id m) d ≠ d ∧
    Diagram.tensor d (Diagram.id m) ≠ d.
Proof.
  destruct d as [dom cod boxes offsets].
  split; [by rewrite then_ok|].
  split; [rewrite then_ok by done; simpl; by rewrite !app_nil_r|].
  split; [unfold Diagram.tensor; simpl; by rewrite shift_0|].
  split; [unfold Diagram.tensor; simpl; by rewrite !Nat.add_0_r, !app_nil_r|].
  intros m Hm. unfold Diagram.tensor; simpl.
  repeat split; [lia | |]; intros Heq;
    apply (f_equal Diagram.dom) in Heq; simpl in Heq; lia.
Qed.

Lemma Id_neutral_witness :
  Diagram.tensor (Diagram.id 1) (Diagram.of_box SWAP) ≠ Diagram.of_box SWAP.
Proof.
  pose proof (Id_neutral (Diagram.of_box SWAP)) as (_ & _ & _ & _ & Hpos).
  destruct (Hpos 1) as (_ & Hne & _); [lia | exact Hne].
Defined.

(** ** [MappingOrCallable] *)

Section MappingOrCallable_facts.
Context {K U V : Type} `{Countable K}.
Import MappingOrCallable.

Implicit Types (self : MappingOrCallable.t K U V) (item : item K U).


End MappingOrCallable_facts.



(** ** Semantics of [Function]s on tuples of scalars *)

Lemma run_unfold (f : Function.t) (xs : list value) :
  run f xs = (r ← Function.call f xs; Ok (tuplify r)).
Proof. reflexivity. Qed.

Lemma scalars_app (xs ys : list value) :
  scalars (xs ++ ys) ↔ scalars xs ∧ scalars ys.
Proof. apply Forall_app. Qed.

(** A call that returns yields, on valid input to a well typed arrow, a
    valid tuple. *)
Lemma well_typed_run (f : Function.t) (xs ys : list value) :
  well_typed f → length xs = Function.dom f → scalars xs →
  run f xs = Ok ys → length ys = Function.cod f ∧ scalars ys.
Proof.
  intros Hf Hlen Hxs. specialize (Hf xs Hlen Hxs). unfold run.
  destruct (Function.call f xs) as [r|e]; simpl; [|done].
  by intros [= <-].
Qed.

Lemma normal_call (f : Function.t) (xs : list value) :
  normal f → length xs = Function.dom f → scalars xs →
  Function.call f xs = (ys ← run f xs; Ok (untuplify ys)).
Proof.
  intros Hf Hlen Hxs. specialize (Hf xs Hlen Hxs). unfold run.
  destruct (Function.call f xs) as [r|e]; simpl; [|done]. by rewrite <- Hf.
Qed.

Lemma id_call (n : nat) (xs : list value) :
  length xs = n → Function.call (Function.id n) xs = Ok (untuplify xs).
Proof. intros Hlen. by rewrite call_eq. Qed.

Lemma id_run (n : nat) (xs : list value) :
  length xs = n → scalars xs → run (Function.id n) xs = Ok xs.
Proof.
  intros Hlen Hxs. unfold run. rewrite id_call by done. simpl.
  by rewrite tuplify_untuplify.
Qed.

Lemma id_well_typed (n : nat) : well_typed (Function.id n) ∧ normal (Function.id n).
Proof.
  split; intros xs Hlen Hxs; simpl in Hlen; rewrite id_call by done;
    rewrite tuplify_untuplify by done; done.
Qed.

Lemma then_run (f g h : Function.t) (xs : list value) :
  Function.then_ f (Function.Fn g) = Ok h →
  run h xs = (ys ← run f xs; run g ys).
Proof.
  unfold Function.then_.
  destruct (negb (Function.cod f =? Function.dom g)); [done|].
  intros [= <-]. unfold run. rewrite call_then, !bind_assoc.
  by apply bind_ext.
Qed.

Lemma then_shape (f g : Function.t) :
  Function.cod f = Function.dom g →
  ∃ h, Function.then_ f (Function.Fn g) = Ok h ∧
       Function.dom h = Function.dom f ∧ Function.cod h = Function.cod g ∧
       (well_typed f → well_typed g → well_typed h) ∧
       (well_typed f → normal g → normal h).
Proof.
  intros Hcod. eexists. split; [by apply then_Fn_ok|].
  split; [done|]. split; [done|].
  split.
  - intros Hf Hg xs Hlen Hxs. simpl in Hlen. rewrite call_then.
    specialize (Hf xs Hlen Hxs).
    destruct (Function.call f xs) as [r|e]; simpl; [|done].
    destruct Hf as [Hr1 Hr2]. apply Hg; [congruence|done].
  - intros Hf Hg xs Hlen Hxs. simpl in Hlen. rewrite call_then.
    specialize (Hf xs Hlen Hxs).
    destruct (Function.call f xs) as [r|e]; simpl; [|done].
    destruct Hf as [Hr1 Hr2]. apply Hg; [congruence|done].
Qed.

Lemma product_app (f g : Function.t) (xs1 xs2 : list value) :
  length xs1 = Function.dom f →
  Function.product f g (xs1 ++ xs2)
  = (a ← run f xs1; b ← run g xs2; Ok (untuplify (a ++ b))).
Proof.
  intros Hlen. unfold Function.product, run.
  rewrite take_app_length', drop_app_length' by done.
  rewrite bind_assoc. apply bind_ext. intros r0 _. simpl.
  by rewrite bind_assoc.
Qed.

Lemma tensor_call (f g h : Function.t) (xs1 xs2 : list value) :
  Function.tensor f (Function.Fn g) = Ok h →
  length xs1 = Function.dom f → length xs2 = Function.dom g →
  Function.call h (xs1 ++ xs2)
  = (a ← run f xs1; b ← run g xs2; Ok (untuplify (a ++ b))).
Proof.
  intros [= <-] H1 H2. rewrite call_eq by (simpl; rewrite length_app; lia).
  simpl. by apply product_app.
Qed.

Lemma tensor_run (f g h : Function.t) (xs1 xs2 : list value) :
  Function.tensor f (Function.Fn g) = Ok h →
  well_typed f → well_typed g →
  length xs1 = Function.dom f → length xs2 = Function.dom g →
  scalars xs1 → scalars xs2 →
  run h (xs1 ++ xs2) = (a ← run f xs1; b ← run g xs2; Ok (a ++ b)).
Proof.
  intros Hh Hf Hg H1 H2 S1 S2. rewrite run_unfold.
  rewrite (tensor_call f g h) by done.
  rewrite bind_assoc. apply bind_ext. intros a Ha.
  rewrite bind_assoc. apply bind_ext. intros b Hb. simpl.
  apply (well_typed_run f) in Ha as [_ Sa]; [|done..].
  apply (well_typed_run g) in Hb as [_ Sb]; [|done..].
  rewrite tuplify_untuplify; [done|]. by apply scalars_app.
Qed.

Lemma tensor_shape (f g : Function.t) :
  ∃ h, Function.tensor f (Function.Fn g) = Ok h ∧
       Function.dom h = Function.dom f + Function.dom g ∧
       Function.cod h = Function.cod f + Function.cod g ∧
       (well_typed f → well_typed g → well_typed h ∧ normal h).
Proof.
  eexists. split; [reflexivity|]. split; [done|]. split; [done|].
  intros Hf Hg.
  assert (∀ xs, length xs = Function.dom f + Function.dom g → scalars xs →
    match Function.product f g xs with
    | Ok r => (length (tuplify r) = Function.cod f + Function.cod g ∧
               scalars (tuplify r)) ∧ r = untuplify (tuplify r)
    | Raise _ => True
    end) as Hprod.
  { intros xs Hlen Hxs. rewrite <- (take_drop (Function.dom f) xs).
    rewrite <- (take_drop (Function.dom f) xs) in Hxs.
    apply scalars_app in Hxs as [S1 S2].
    assert (length (take (Function.dom f) xs) = Function.dom f) as H1
      by (rewrite length_take; lia).
    assert (length (drop (Function.dom f) xs) = Function.dom g) as H2
      by (rewrite length_drop; lia).
    rewrite product_app by done.
    destruct (run f (take (Function.dom f) xs)) as [a|e] eqn:Ea; [|done].
    destruct (run g (drop (Function.dom f) xs)) as [b|e] eqn:Eb; [|done].
    simpl.
    apply (well_typed_run f) in Ea as [La Sa]; [|done..].
    apply (well_typed_run g) in Eb as [Lb Sb]; [|done..].
    assert (scalars (a ++ b)) as Sab by by apply scalars_app.
    rewrite tuplify_untuplify by done.
    by rewrite length_app, La, Lb. }
  split; intros xs Hlen Hxs; simpl in Hlen; rewrite call_eq by done; simpl;
    specialize (Hprod xs Hlen Hxs);
    destruct (Function.product f g xs); [tauto|done|tauto|done].
Qed.

(** A layer of the image of a diagram: a box between two identities. *)
Lemma layer_sem (l r : nat) (f : Function.t) :
  well_typed f →
  ∃ h0 h, Function.tensor (Function.id l) (Function.Fn f) = Ok h0 ∧
          Function.tensor h0 (Function.Fn (Function.id r)) = Ok h ∧
          Function.dom h = l + Function.dom f + r ∧
          Function.cod h = l + Function.cod f + r ∧
          well_typed h ∧ normal h ∧
          ∀ xl xm xr,
            length xl = l → length xm = Function.dom f → length xr = r →
            scalars xl → scalars xm → scalars xr →
            run h (xl ++ xm ++ xr) = (ym ← run f xm; Ok (xl ++ ym ++ xr)).
Proof.
  intros Hf.
  destruct (tensor_shape (Function.id l) f) as (h0 & Hh0 & D0 & C0 & T0).
  destruct (T0 (proj1 (id_well_typed l)) Hf) as [W0 _].
  destruct (tensor_shape h0 (Function.id r)) as (h & Hh & D & C & T).
  destruct (T W0 (proj1 (id_well_typed r))) as [W N].
  exists h0, h. split; [done|]. split; [done|].
  split; [by rewrite D, D0|]. split; [by rewrite C, C0|].
  split; [done|]. split; [done|].
  intros xl xm xr Ll Lm Lr Sl Sm Sr.
  rewrite app_assoc.
  rewrite (tensor_run h0 (Function.id r) h); try done.
  - rewrite (tensor_run (Function.id l) f h0); try done;
      [|apply id_well_typed].
    rewrite (id_run l), (id_run r) by done. simpl.
    destruct (run f xm) as [ym|e]; simpl; [|done]. by rewrite <- app_assoc.
  - apply id_well_typed.
  - rewrite length_app, D0. simpl. lia.
  - by apply scalars_app.
Qed.

(** ** Layers and widths *)

Lemma widths_cons (box : Box.t) (off : Z) (layers : list (Box.t * Z))
    (scan w : nat) :
  widths scan ((box, off) :: layers) = Some w →
  (0 ≤ off)%Z ∧ Z.to_nat off + Box.dom box ≤ scan ∧
  widths (Z.to_nat off + Box.cod box + (scan - Z.to_nat off - Box.dom box))
    layers = Some w.
Proof.
  simpl. destruct (0 <=? off)%Z eqn:E1; [|done].
  destruct (Z.to_nat off + Box.dom box <=? scan) eqn:E2; [|done]. simpl.
  apply Z.leb_le in E1. apply Nat.leb_le in E2. done.
Qed.

Lemma split3 {A : Type} (l m : nat) (xs : list A) :
  xs = take l xs ++ take m (drop l xs) ++ drop (l + m) xs.
Proof. by rewrite <- drop_drop, !take_drop. Qed.

Lemma widths_app (l1 l2 : list (Box.t * Z)) (scan : nat) :
  widths scan (l1 ++ l2) = (w ← widths scan l1; widths w l2).
Proof.
  revert scan. induction l1 as [|[box off] l1 IH]; intros scan; [done|].
  simpl. destruct (_ && _); [apply IH|done].
Qed.

Lemma widths_frame (l : list (Box.t * Z)) (scan w k : nat) :
  widths scan l = Some w → widths (scan + k) l = Some (w + k).
Proof.
  revert scan. induction l as [|[box off] l IH]; intros scan Hw.
  - injection Hw as <-. done.
  - apply widths_cons in Hw as (Hoff & Hfit & Hw). simpl.
    rewrite (proj2 (Z.leb_le _ _) Hoff). simpl.
    rewrite (proj2 (Nat.leb_le _ _)) by lia.
    rewrite <- (IH _ Hw). f_equal. lia.
Qed.

Lemma widths_shift (l : list (Box.t * Z)) (scan w k : nat) :
  widths scan l = Some w → widths (k + scan) (shift k l) = Some (k + w).
Proof.
  revert scan. induction l as [|[box off] l IH]; intros scan Hw.
  - injection Hw as <-. done.
  - apply widths_cons in Hw as (Hoff & Hfit & Hw). simpl.
    rewrite (proj2 (Z.leb_le _ _)) by lia. simpl.
    rewrite (proj2 (Nat.leb_le _ _)) by lia.
    rewrite <- (IH _ Hw). f_equal. lia.
Qed.

Lemma zip_shift (bs : list Box.t) (os : list Z) (k : nat) :
  zip bs (map (λ n, (n + Z.of_nat k)%Z) os) = shift k (zip bs os).
Proof.
  revert os. induction bs as [|b bs IH]; intros [|o os]; simpl; try done.
  by rewrite IH.
Qed.

Lemma shift_boxes (k : nat) (l : list (Box.t * Z)) : (shift k l).*1 = l.*1.
Proof. induction l as [|[b o] l IH]; simpl; [done|]. f_equal. exact IH. Qed.

Lemma layers_boxes (d : Diagram.t) :
  well_formed d →
  (zip (Diagram.boxes d) (Diagram.offsets d)).*1 = Diagram.boxes d.
Proof. intros [Hlen _]. apply fst_zip. lia. Qed.

Lemma then_well_formed (d1 d2 d : Diagram.t) :
  well_formed d1 → well_formed d2 → Diagram.then_ d1 d2 = Ok d →
  well_formed d ∧
  Diagram.dom d = Diagram.dom d1 ∧ Diagram.cod d = Diagram.cod d2 ∧
  Diagram.boxes d = Diagram.boxes d1 ++ Diagram.boxes d2 ∧
  zip (Diagram.boxes d) (Diagram.offsets d)
  = zip (Diagram.boxes d1) (Diagram.offsets d1)
    ++ zip (Diagram.boxes d2) (Diagram.offsets d2).
Proof.
  intros [L1 W1] [L2 W2]. unfold Diagram.then_.
  destruct (Diagram.cod d1 =? Diagram.dom d2) eqn:E; [|done].
  apply Nat.eqb_eq in E. intros [= <-]. simpl.
  assert (zip (Diagram.boxes d1 ++ Diagram.boxes d2)
              (Diagram.offsets d1 ++ Diagram.offsets d2)
          = zip (Diagram.boxes d1) (Diagram.offsets d1)
            ++ zip (Diagram.boxes d2) (Diagram.offsets d2)) as Hzip
    by by apply zip_with_app.
  repeat split; try done; simpl.
  - rewrite !length_app. lia.
  - rewrite Hzip, widths_app, W1. simpl. by rewrite E.
Qed.

Lemma tensor_well_formed (d1 d2 : Diagram.t) :
  well_formed d1 → well_formed d2 →
  well_formed (Diagram.tensor d1 d2) ∧
  zip (Diagram.boxes (Diagram.tensor d1 d2))
      (Diagram.offsets (Diagram.tensor d1 d2))
  = zip (Diagram.boxes d1) (Diagram.offsets d1)
    ++ shift (Diagram.cod d1) (zip (Diagram.boxes d2) (Diagram.offsets d2)).
Proof.
  intros [L1 W1] [L2 W2]. unfold Diagram.tensor. simpl.
  assert (zip (Diagram.boxes d1 ++ Diagram.boxes d2)
            (Diagram.offsets d1
             ++ map (λ n, (n + Z.of_nat (Diagram.cod d1))%Z) (Diagram.offsets d2))
          = zip (Diagram.boxes d1) (Diagram.offsets d1)
            ++ shift (Diagram.cod d1)
                 (zip (Diagram.boxes d2) (Diagram.offsets d2))) as Hzip.
  { rewrite <- zip_shift. by apply zip_with_app. }
  split; [|done]. split; simpl.
  - rewrite !length_app, length_map. lia.
  - rewrite Hzip, widths_app.
    rewrite (widths_frame _ _ _ (Diagram.dom d2) W1). simpl.
    by apply widths_shift.
Qed.

(** ** The image of a diagram under a functor into [Function] *)

(** Two arrows that never return a tuple of length one and compute the same
    tuples return the same values. *)
Lemma normal_call_eq (f g : Function.t) (xs : list value) :
  normal f → normal g →
  length xs = Function.dom f → length xs = Function.dom g → scalars xs →
  run f xs = run g xs → Function.call f xs = Function.call g xs.
Proof.
  intros Nf Ng Lf Lg Sx Hrun.
  by rewrite (normal_call f), (normal_call g), Hrun.
Qed.

Section Function_functor.
Context (F : Functor Function.t) (Hmon : monoidal (ob F)).

Lemma apply_layers_Function_cons (scan : nat) (acc : Function.t)
    (box : Box.t) (off : Z) (layers : list (Box.t * Z)) :
  apply_layers F scan acc ((box, off) :: layers)
  = (image ← ar F box;
     l ← Function.tensor (Function.id (ob F (Z.to_nat off)))
           (Function.Fn image);
     layer ← Function.tensor l
           (Function.Fn
              (Function.id (ob F (scan - Z.to_nat off - Box.dom box))));
     result ← Function.then_ acc (Function.Fn layer);
     apply_layers F
       (Z.to_nat off + Box.cod box + (scan - Z.to_nat off - Box.dom box))
       result layers).
Proof. reflexivity. Qed.

(** Splits the hypotheses on a sequence of layers that starts with a box
    into those on the box, whose image is named [f], and those on the
    rest. *)
Ltac first_layer Hw Hvalid :=
  apply widths_cons in Hw as (Hoff & Hfit & Hw);
  rewrite fmap_cons in Hvalid;
  apply Forall_cons in Hvalid as [(f & Hf & Df & Cf & Wf) Hvalid];
  cbn [fst] in Hf, Df, Cf.

Lemma apply_layers_den (layers : list (Box.t * Z)) :
  ∀ scan w acc,
    widths scan layers = Some w →
    Forall (valid_at F) layers.*1 →
    Function.cod acc = ob F scan → well_typed acc →
    ∃ h, apply_layers F scan acc layers = Ok h ∧
         Function.dom h = Function.dom acc ∧
         Function.cod h = ob F w ∧
         well_typed h ∧ (normal acc → normal h) ∧
         ∀ xs, length xs = Function.dom acc → scalars xs →
           run h xs = (ys ← run acc xs; den F layers ys).
Proof.
  pose proof Hmon as [Hob0 Hob].
  induction layers as [|[box off] layers IH];
    intros scan w acc Hw Hvalid Hcod Hacc.
  - injection Hw as <-. exists acc. repeat split; try done.
    intros xs _ _. simpl. by rewrite bind_ret.
  - first_layer Hw Hvalid.
    set (left := Z.to_nat off) in *.
    set (right := scan - left - Box.dom box) in *.
    destruct (layer_sem (ob F left) (ob F right) f Wf)
      as (h0 & hl & Hh0 & Hhl & Dl & Cl & Wl & Nl & Rl).
    assert (Function.cod acc = Function.dom hl) as Hcomp.
    { rewrite Hcod, Dl, Df, <- !Hob. f_equal. lia. }
    destruct (then_shape acc hl Hcomp) as (acc' & Hacc' & D' & C' & W' & N').
    destruct (IH (left + Box.cod box + right) w acc') as
      (h & Hh & Dh & Ch & Wh & Nh & Rh); try done.
    { by rewrite C', Cl, Cf, <- !Hob. }
    { by apply W'. }
    exists h. split.
    { rewrite apply_layers_Function_cons. fold left right.
      by rewrite Hf, bind_Ok, Hh0, bind_Ok, Hhl, bind_Ok, Hacc', bind_Ok. }
    split; [congruence|]. split; [done|]. split; [done|].
    split; [intros _; apply Nh, N'; done|].
    intros xs Hlen Hxs.
    rewrite Rh by congruence.
    rewrite (then_run acc hl acc') by done.
    rewrite bind_assoc. apply bind_ext. intros zs Hzs.
    apply (well_typed_run acc) in Hzs as [Lz Sz]; [|done..].
    simpl. rewrite Hf. simpl. fold left.
    assert (ob F left + ob F (Box.dom box) ≤ length zs) as Hle.
    { rewrite Lz, Hcod. replace scan with (left + Box.dom box + right) by lia.
      rewrite !Hob. lia. }
    rewrite (split3 (ob F left) (ob F (Box.dom box)) zs) at 1.
    pose proof Sz as Sz'.
    rewrite (split3 (ob F left) (ob F (Box.dom box)) zs) in Sz'.
    apply scalars_app in Sz' as [S1 S23]. apply scalars_app in S23 as [S2 S3].
    rewrite Rl; try done.
    + by rewrite bind_assoc.
    + rewrite length_take. lia.
    + rewrite length_take, length_drop. lia.
    + rewrite length_drop, Lz, Hcod.
      replace scan with (left + Box.dom box + right) at 1 by lia.
      rewrite !Hob. lia.
Qed.

(** *** Layers: widths and denotation *)

Lemma den_app (l1 l2 : list (Box.t * Z)) (xs : list value) :
  den F (l1 ++ l2) xs = (ys ← den F l1 xs; den F l2 ys).
Proof.
  revert xs. induction l1 as [|[box off] l1 IH]; intros xs; [done|].
  simpl. destruct (ar F box) as [f|e]; [|done]. simpl.
  destruct (run f _) as [ys|e]; [|done]. simpl. apply IH.
Qed.

(** One box keeps a tuple valid for the next width. *)
Lemma den_step_valid (box : Box.t) (off : Z) (scan : nat) (f : Function.t)
    (xs ys : list value) :
  (0 ≤ off)%Z → Z.to_nat off + Box.dom box ≤ scan →
  Function.dom f = ob F (Box.dom box) →
  Function.cod f = ob F (Box.cod box) → well_typed f →
  length xs = ob F scan → scalars xs →
  let l := ob F (Z.to_nat off) in
  let m := ob F (Box.dom box) in
  (length (take m (drop l xs)) = Function.dom f ∧
   scalars (take m (drop l xs))) ∧
  (run f (take m (drop l xs)) = Ok ys →
   length (take l xs ++ ys ++ drop (l + m) xs)
   = ob F (Z.to_nat off + Box.cod box + (scan - Z.to_nat off - Box.dom box)) ∧
   scalars (take l xs ++ ys ++ drop (l + m) xs)).
Proof.
  intros Hoff Hfit Df Cf Wf Lx Sx l m. pose proof Hmon as [Hob0 Hob].
  set (left := Z.to_nat off) in *.
  set (right := scan - left - Box.dom box).
  assert (length xs = l + m + ob F right) as Lx'.
  { rewrite Lx. replace scan with (left + Box.dom box + right) by lia.
    by rewrite !Hob. }
  pose proof Sx as Sx'. rewrite (split3 l m xs) in Sx'.
  apply scalars_app in Sx' as [S1 S23]. apply scalars_app in S23 as [S2 S3].
  assert (length (take m (drop l xs)) = Function.dom f) as Lm.
  { rewrite length_take, length_drop, Df. fold m. lia. }
  split; [done|]. intros Hrun.
  apply (well_typed_run f) in Hrun as [Ly Sy]; [|done..].
  split.
  - rewrite !length_app, length_take, length_drop, Ly, Cf, !Hob. lia.
  - apply scalars_app. split; [done|]. by apply scalars_app.
Qed.

Lemma den_valid (l : list (Box.t * Z)) :
  ∀ scan w xs ys,
    widths scan l = Some w → Forall (valid_at F) l.*1 →
    length xs = ob F scan → scalars xs →
    den F l xs = Ok ys → length ys = ob F w ∧ scalars ys.
Proof.
  induction l as [|[box off] l IH];
    intros scan w xs ys Hw Hvalid Lx Sx Hden.
  - injection Hw as <-. by injection Hden as <-.
  - first_layer Hw Hvalid. simpl in Hden. rewrite Hf, bind_Ok in Hden.
    destruct (run f _) as [zs|e] eqn:Ef; [|done]. rewrite bind_Ok in Hden.
    destruct (den_step_valid box off scan f xs zs) as [_ Hnext]; try done.
    destruct (Hnext Ef) as [L S]. by eapply IH.
Qed.

(** Wires to the right of a diagram are left alone. *)
Lemma den_frame (l : list (Box.t * Z)) :
  ∀ scan w xs zs,
    widths scan l = Some w → Forall (valid_at F) l.*1 →
    length xs = ob F scan → scalars xs →
    den F l (xs ++ zs) = (ys ← den F l xs; Ok (ys ++ zs)).
Proof.
  induction l as [|[box off] l IH];
    intros scan w xs zs Hw Hvalid Lx Sx; [done|].
  first_layer Hw Hvalid. simpl. rewrite Hf, !bind_Ok.
  set (lw := ob F (Z.to_nat off)). set (m := ob F (Box.dom box)).
  destruct (den_step_valid box off scan f xs) with (ys := @nil value)
    as [[Lm _] _]; try done.
  fold lw m in Lm.
  assert (lw + m ≤ length xs) as Hle.
  { rewrite length_take, length_drop in Lm. rewrite Df in Lm. fold m in Lm.
    destruct Hmon as [_ Hob]. rewrite Lx.
    replace scan with (Z.to_nat off + Box.dom box
                       + (scan - Z.to_nat off - Box.dom box)) by lia.
    rewrite !Hob. fold lw m. lia. }
  rewrite (take_app_le xs zs lw) by lia.
  rewrite (drop_app_le xs zs lw) by lia.
  rewrite (take_app_le (drop lw xs) zs m) by (rewrite length_drop; lia).
  rewrite (drop_app_le xs zs (lw + m)) by lia.
  destruct (run f (take m (drop lw xs))) as [ys|e] eqn:Ef; [|done].
  rewrite !bind_Ok.
  destruct (den_step_valid box off scan f xs ys) as [_ Hnext]; try done.
  destruct (Hnext Ef) as [L S].
  etrans; [|apply (IH _ w _ zs Hw Hvalid L S)].
  f_equal. by rewrite <- !app_assoc.
Qed.

(** Wires to the left of a diagram are left alone. *)
Lemma den_shift (l : list (Box.t * Z)) :
  ∀ k scan w xs zs,
    widths scan l = Some w → Forall (valid_at F) l.*1 →
    length xs = ob F scan → scalars xs → length zs = ob F k →
    den F (shift k l) (zs ++ xs) = (ys ← den F l xs; Ok (zs ++ ys)).
Proof.
  induction l as [|[box off] l IH];
    intros k scan w xs zs Hw Hvalid Lx Sx Lz; [done|].
  first_layer Hw Hvalid. simpl. rewrite Hf, !bind_Ok.
  replace (Z.to_nat (off + Z.of_nat k)) with (k + Z.to_nat off) by lia.
  pose proof Hmon as [_ Hob]. rewrite Hob, <- Lz.
  set (lw := ob F (Z.to_nat off)). set (m := ob F (Box.dom box)).
  rewrite take_app_add', <- Nat.add_assoc, !drop_app_add' by done.
  destruct (run f (take m (drop lw xs))) as [ys|e] eqn:Ef; [|done].
  rewrite !bind_Ok.
  destruct (den_step_valid box off scan f xs ys) as [_ Hnext]; try done.
  destruct (Hnext Ef) as [L S].
  etrans; [|apply (IH k _ w _ zs Hw Hvalid L S Lz)].
  f_equal. by rewrite <- !app_assoc.
Qed.

(** *** The image of a well formed diagram *)

Lemma apply_den (d : Diagram.t) :
  well_formed d → Forall (valid_at F) (Diagram.boxes d) →
  ∃ h, apply F d = Ok h ∧
       Function.dom h = ob F (Diagram.dom d) ∧
       Function.cod h = ob F (Diagram.cod d) ∧
       well_typed h ∧ normal h ∧
       ∀ xs, length xs = ob F (Diagram.dom d) → scalars xs →
         run h xs = den F (zip (Diagram.boxes d) (Diagram.offsets d)) xs.
Proof.
  intros Hwf Hvalid. pose proof Hwf as [_ Hw].
  rewrite <- (layers_boxes d Hwf) in Hvalid.
  destruct (apply_layers_den _ _ _
              (Function.id (ob F (Diagram.dom d))) Hw Hvalid eq_refl
              (proj1 (id_well_typed _)))
    as (h & Hh & Dh & Ch & Wh & Nh & Rh).
  exists h. repeat split; try done.
  - apply Nh, id_well_typed.
  - intros xs Lx Sx. rewrite Rh by done. by rewrite id_run.
Qed.

(** *** Functoriality for functors into [Function] *)

Lemma Function_functor_then (d1 d2 : Diagram.t) :
  well_formed d1 → well_formed d2 →
  Forall (valid_at F) (Diagram.boxes d1) →
  Forall (valid_at F) (Diagram.boxes d2) →
  Diagram.cod d1 = Diagram.dom d2 →
  ∃ d h h1 h2 h',
    Diagram.then_ d1 d2 = Ok d ∧ apply F d = Ok h ∧
    apply F d1 = Ok h1 ∧ apply F d2 = Ok h2 ∧
    Function.then_ h1 (Function.Fn h2) = Ok h' ∧
    ∀ xs, length xs = ob F (Diagram.dom d1) → scalars xs →
      Function.call h xs = Function.call h' xs.
Proof.
  intros Wf1 Wf2 V1 V2 Hcod.
  pose proof (then_ok d1 d2 Hcod) as Hd.
  destruct (then_well_formed d1 d2 _ Wf1 Wf2 Hd) as (Wf & Dd & Cd & Bd & Zd).
  destruct (apply_den d1 Wf1 V1) as (h1 & H1 & D1 & C1 & W1 & N1 & R1).
  destruct (apply_den d2 Wf2 V2) as (h2 & H2 & D2 & C2 & W2 & N2 & R2).
  destruct (apply_den _ Wf) as (h & Hh & Dh & Ch & Wh & Nh & Rh).
  { rewrite Bd. by apply Forall_app. }
  destruct (then_shape h1 h2) as (h' & Hh' & D' & C' & W' & N');
    [congruence|].
  eexists _, h, h1, h2, h'. repeat split; try done.
  intros xs Lx Sx. apply normal_call_eq; try done; [by apply N'|congruence..|].
  rewrite Rh by done. rewrite Zd, den_app.
  rewrite (then_run h1 h2 h') by done. rewrite R1 by done.
  apply bind_ext. intros ys Hys. symmetry. apply R2.
  - rewrite <- Hcod. eapply den_valid; try done; [apply Wf1|].
    by rewrite layers_boxes.
  - eapply (den_valid _ _ _ xs); try done; [apply Wf1|].
    by rewrite layers_boxes.
Qed.

Lemma Function_functor_tensor (d1 d2 : Diagram.t) :
  well_formed d1 → well_formed d2 →
  Forall (valid_at F) (Diagram.boxes d1) →
  Forall (valid_at F) (Diagram.boxes d2) →
  ∃ h h1 h2 h',
    apply F (Diagram.tensor d1 d2) = Ok h ∧
    apply F d1 = Ok h1 ∧ apply F d2 = Ok h2 ∧
    Function.tensor h1 (Function.Fn h2) = Ok h' ∧
    ∀ xs, length xs = ob F (Diagram.dom d1 + Diagram.dom d2) → scalars xs →
      Function.call h xs = Function.call h' xs.
Proof.
  intros Wf1 Wf2 V1 V2. pose proof Hmon as [_ Hob].
  destruct (tensor_well_formed d1 d2 Wf1 Wf2) as [Wf Zd].
  destruct (apply_den d1 Wf1 V1) as (h1 & H1 & D1 & C1 & W1 & N1 & R1).
  destruct (apply_den d2 Wf2 V2) as (h2 & H2 & D2 & C2 & W2 & N2 & R2).
  destruct (apply_den _ Wf) as (h & Hh & Dh & Ch & Wh & Nh & Rh).
  { simpl. by apply Forall_app. }
  destruct (tensor_shape h1 h2) as (h' & Hh' & D' & C' & T').
  destruct (T' W1 W2) as [W' N'].
  exists h, h1, h2, h'. repeat split; try done.
  intros xs Lx Sx.
  apply normal_call_eq; try done;
    [by rewrite Dh|rewrite D', D1, D2, <- Hob; done|].
  assert (∀ xs1 xs2,
    length xs1 = ob F (Diagram.dom d1) → length xs2 = ob F (Diagram.dom d2) →
    scalars xs1 → scalars xs2 →
    run h (xs1 ++ xs2) = run h' (xs1 ++ xs2)) as Happ.
  { intros xs1 xs2 L1 L2 S1 S2.
    rewrite Rh; [|by rewrite length_app, L1, L2, <- Hob|by apply scalars_app].
    rewrite Zd, den_app.
    pose proof Wf1 as [_ Hw1]. pose proof Wf2 as [_ Hw2].
    rewrite (den_frame _ _ _ _ _ Hw1) by (by rewrite ?layers_boxes).
    rewrite (tensor_run h1 h2 h') by (done || congruence).
    rewrite R1, R2 by done. rewrite bind_assoc.
    apply bind_ext. intros a Ha. rewrite bind_Ok.
    eapply (den_valid _) in Ha as [La Sa];
      [|exact Hw1|by rewrite layers_boxes|done..].
    by rewrite (den_shift _ _ _ _ _ _ Hw2)
      by (by rewrite ?layers_boxes). }
  rewrite Hob in Lx.
  rewrite <- (take_drop (ob F (Diagram.dom d1)) xs) in Sx |- *.
  apply scalars_app in Sx as [S1 S2].
  apply Happ; try done.
  - rewrite length_take. lia.
  - rewrite length_drop. lia.
Qed.

End Function_functor.

(** ** The image of a diagram under a functor into [Diagram] *)

(** A layer as a diagram: the boxes of the image, moved right by the width
    of the left identity. *)
Lemma Diagram_layer (l r : nat) (X : Diagram.t) :
  Diagram.tensor (Diagram.tensor (Diagram.id l) X) (Diagram.id r)
  = Diagram.mk (l + Diagram.dom X + r) (l + Diagram.cod X + r)
      (Diagram.boxes X)
      (map (λ n, (n + Z.of_nat l)%Z) (Diagram.offsets X)).
Proof. unfold Diagram.tensor. simpl. by rewrite !app_nil_r. Qed.

Lemma tensor_id_r (X : Diagram.t) (k : nat) :
  Diagram.tensor X (Diagram.id k)
  = Diagram.mk (Diagram.dom X + k) (Diagram.cod X + k)
      (Diagram.boxes X) (Diagram.offsets X).
Proof. unfold Diagram.tensor. simpl. by rewrite !app_nil_r. Qed.

Lemma apply_layers_app {A : Type} `{ArCls A} (F : Functor A)
    (l1 l2 : list (Box.t * Z)) :
  ∀ scan w acc, widths scan l1 = Some w →
    apply_layers F scan acc (l1 ++ l2)
    = (acc' ← apply_layers F scan acc l1; apply_layers F w acc' l2).
Proof.
  induction l1 as [|[box off] l1 IH]; intros scan w acc Hw.
  - by injection Hw as <-.
  - apply widths_cons in Hw as (_ & _ & Hw). simpl.
    destruct (ar F box) as [X|e]; [|done]. simpl.
    destruct (ar_tensor _ X) as [l|e]; [|done]. simpl.
    destruct (ar_tensor l _) as [layer|e]; [|done]. simpl.
    destruct (ar_then acc layer) as [acc'|e]; [|done]. simpl.
    by apply IH.
Qed.

Section Diagram_functor.
Context (F : Functor Diagram.t) (Hmon : monoidal (ob F)).

Lemma apply_layers_Diagram_cons (scan : nat) (acc : Diagram.t)
    (box : Box.t) (off : Z) (layers : list (Box.t * Z)) :
  apply_layers F scan acc ((box, off) :: layers)
  = (X ← ar F box;
     result ← Diagram.then_ acc
       (Diagram.tensor (Diagram.tensor (Diagram.id (ob F (Z.to_nat off))) X)
          (Diagram.id (ob F (scan - Z.to_nat off - Box.dom box))));
     apply_layers F
       (Z.to_nat off + Box.cod box + (scan - Z.to_nat off - Box.dom box))
       result layers).
Proof. simpl. by destruct (ar F box). Qed.

(** The image of a sequence of layers exists, keeps the domain of what it
    is composed after, and ends on the image of the last width. *)
Lemma apply_layers_Diagram_ok (layers : list (Box.t * Z)) :
  ∀ scan w acc,
    widths scan layers = Some w → Forall (valid_image F) layers.*1 →
    Diagram.cod acc = ob F scan →
    ∃ X, apply_layers F scan acc layers = Ok X ∧
         Diagram.dom X = Diagram.dom acc ∧ Diagram.cod X = ob F w.
Proof.
  pose proof Hmon as [_ Hob].
  induction layers as [|[box off] layers IH];
    intros scan w acc Hw Hvalid Hcod.
  - injection Hw as <-. by exists acc.
  - apply widths_cons in Hw as (Hoff & Hfit & Hw).
    rewrite fmap_cons in Hvalid.
    apply Forall_cons in Hvalid as [(X & HX & DX & CX) Hvalid].
    cbn [fst] in HX, DX, CX.
    rewrite apply_layers_Diagram_cons, HX, bind_Ok, Diagram_layer.
    rewrite then_ok; [|simpl; rewrite Hcod, DX, <- !Hob; f_equal; lia].
    rewrite bind_Ok.
    match goal with
    | |- context [apply_layers F ?s ?a layers] =>
        destruct (IH s w a) as (Y & HY & DY & CY);
          [exact Hw|exact Hvalid|simpl; by rewrite CX, <- !Hob|]
    end.
    exists Y. by rewrite HY.
Qed.

(** Composing before the accumulator commutes with the fold. *)
Lemma apply_layers_Diagram_prefix (layers : list (Box.t * Z)) :
  ∀ scan acc X pre,
    apply_layers F scan acc layers = Ok X →
    apply_layers F scan
      (Diagram.mk (Diagram.dom pre) (Diagram.cod acc)
         (Diagram.boxes pre ++ Diagram.boxes acc)
         (Diagram.offsets pre ++ Diagram.offsets acc)) layers
    = Ok (Diagram.mk (Diagram.dom pre) (Diagram.cod X)
            (Diagram.boxes pre ++ Diagram.boxes X)
            (Diagram.offsets pre ++ Diagram.offsets X)).
Proof.
  induction layers as [|[box off] layers IH]; intros scan acc X pre.
  - by intros [= <-].
  - rewrite !apply_layers_Diagram_cons.
    destruct (ar F box) as [Y|e]; [|done]. rewrite !bind_Ok.
    rewrite Diagram_layer. unfold Diagram.then_. simpl.
    destruct (negb _); [done|]. rewrite !bind_Ok. intros HX.
    apply (IH _ _ _ pre) in HX. simpl in HX. by rewrite <- !app_assoc.
Qed.

(** Wires to the right of the layers only widen the image. *)
Lemma apply_layers_Diagram_frame (layers : list (Box.t * Z)) :
  ∀ scan w acc X k,
    widths scan layers = Some w →
    apply_layers F scan acc layers = Ok X →
    apply_layers F (scan + k) (Diagram.tensor acc (Diagram.id (ob F k))) layers
    = Ok (Diagram.tensor X (Diagram.id (ob F k))).
Proof.
  pose proof Hmon as [_ Hob].
  induction layers as [|[box off] layers IH];
    intros scan w acc X k Hw.
  - by intros [= <-].
  - apply widths_cons in Hw as (Hoff & Hfit & Hw).
    rewrite !apply_layers_Diagram_cons.
    destruct (ar F box) as [Y|e]; [|done]. rewrite !bind_Ok.
    replace (scan + k - Z.to_nat off - Box.dom box)
      with ((scan - Z.to_nat off - Box.dom box) + k) by lia.
    rewrite !Diagram_layer, tensor_id_r. unfold Diagram.then_. simpl.
    destruct (Diagram.cod acc =? _) eqn:E; [|done].
    apply Nat.eqb_eq in E. simpl. intros HX.
    rewrite (proj2 (Nat.eqb_eq _ _)) by (rewrite E, Hob; lia). simpl.
    apply (IH _ _ _ _ k Hw) in HX. rewrite tensor_id_r in HX. simpl in HX.
    rewrite <- HX. f_equal; [lia|]. f_equal. rewrite Hob. lia.
Qed.

(** Wires to the left of the layers move the image to the right. *)
Lemma apply_layers_Diagram_shift (layers : list (Box.t * Z)) :
  ∀ scan w acc X pre k,
    widths scan layers = Some w → Diagram.cod pre = ob F k →
    apply_layers F scan acc layers = Ok X →
    apply_layers F (k + scan) (Diagram.tensor pre acc) (shift k layers)
    = Ok (Diagram.tensor pre X).
Proof.
  pose proof Hmon as [_ Hob].
  induction layers as [|[box off] layers IH];
    intros scan w acc X pre k Hw Hpre.
  - by intros [= <-].
  - apply widths_cons in Hw as (Hoff & Hfit & Hw).
    change (shift k ((box, off) :: layers))
      with ((box, (off + Z.of_nat k)%Z) :: shift k layers).
    rewrite !apply_layers_Diagram_cons.
    destruct (ar F box) as [Y|e]; [|done]. rewrite !bind_Ok.
    replace (Z.to_nat (off + Z.of_nat k)) with (k + Z.to_nat off) by lia.
    replace (k + scan - (k + Z.to_nat off) - Box.dom box)
      with (scan - Z.to_nat off - Box.dom box) by lia.
    rewrite !Diagram_layer. unfold Diagram.then_. simpl.
    destruct (Diagram.cod acc =? _) eqn:E; [|done].
    apply Nat.eqb_eq in E. simpl. intros HX.
    rewrite (proj2 (Nat.eqb_eq _ _)) by (rewrite E, Hpre, Hob; lia). simpl.
    apply (IH _ _ _ _ pre k Hw Hpre) in HX.
    rewrite <- HX. unfold Diagram.tensor. simpl.
    replace (k + Z.to_nat off + Box.cod box
             + (scan - Z.to_nat off - Box.dom box))
      with (k + (Z.to_nat off + Box.cod box
                 + (scan - Z.to_nat off - Box.dom box))) by lia.
    f_equal. f_equal.
    + rewrite Hpre, Hob. lia.
    + by rewrite app_assoc.
    + rewrite map_app, map_map, <- app_assoc. do 2 f_equal.
      apply map_ext. intros n. rewrite Hpre, Hob. lia.
Qed.

(** *** Functoriality for functors into [Diagram] *)

Lemma Diagram_functor_ok (d : Diagram.t) :
  well_formed d → Forall (valid_image F) (Diagram.boxes d) →
  ∃ X, apply F d = Ok X ∧
       Diagram.dom X = ob F (Diagram.dom d) ∧
       Diagram.cod X = ob F (Diagram.cod d).
Proof.
  intros Hwf Hvalid. pose proof Hwf as [_ Hw].
  rewrite <- (layers_boxes d Hwf) in Hvalid.
  by apply (apply_layers_Diagram_ok _ _ _
              (Diagram.id (ob F (Diagram.dom d))) Hw Hvalid).
Qed.

Lemma Diagram_functor_then (d1 d2 : Diagram.t) :
  well_formed d1 → well_formed d2 →
  Forall (valid_image F) (Diagram.boxes d1) →
  Forall (valid_image F) (Diagram.boxes d2) →
  Diagram.cod d1 = Diagram.dom d2 →
  ∃ d X X1 X2,
    Diagram.then_ d1 d2 = Ok d ∧ apply F d = Ok X ∧
    apply F d1 = Ok X1 ∧ apply F d2 = Ok X2 ∧
    Diagram.then_ X1 X2 = Ok X.
Proof.
  intros Wf1 Wf2 V1 V2 Hcod.
  pose proof (then_ok d1 d2 Hcod) as Hd.
  destruct (then_well_formed d1 d2 _ Wf1 Wf2 Hd) as (Wf & Dd & Cd & Bd & Zd).
  destruct (Diagram_functor_ok d1 Wf1 V1) as (X1 & H1 & D1 & C1).
  destruct (Diagram_functor_ok d2 Wf2 V2) as (X2 & H2 & D2 & C2).
  eexists _, _, X1, X2. split; [exact Hd|]. split; [|split; [done|split; [done|]]].
  - unfold apply. rewrite Zd. simpl.
    rewrite (apply_layers_app F _ _ _ _ _ (proj2 Wf1)).
    unfold apply in H1, H2. simpl in H1, H2. rewrite H1, bind_Ok.
    apply (apply_layers_Diagram_prefix _ _ _ _ X1) in H2. simpl in H2.
    rewrite !app_nil_r in H2. rewrite <- Hcod, <- C1 in H2.
    destruct X1 as [a b c e]. exact H2.
  - rewrite then_ok by congruence. done.
Qed.

Lemma Diagram_functor_tensor (d1 d2 : Diagram.t) :
  well_formed d1 → well_formed d2 →
  Forall (valid_image F) (Diagram.boxes d1) →
  Forall (valid_image F) (Diagram.boxes d2) →
  ∃ X1 X2,
    apply F d1 = Ok X1 ∧ apply F d2 = Ok X2 ∧
    apply F (Diagram.tensor d1 d2) = Ok (Diagram.tensor X1 X2).
Proof.
  intros Wf1 Wf2 V1 V2. pose proof Hmon as [_ Hob].
  destruct (tensor_well_formed d1 d2 Wf1 Wf2) as [Wf Zd].
  destruct (Diagram_functor_ok d1 Wf1 V1) as (X1 & H1 & D1 & C1).
  destruct (Diagram_functor_ok d2 Wf2 V2) as (X2 & H2 & D2 & C2).
  exists X1, X2. split; [done|]. split; [done|].
  unfold apply. rewrite Zd.
  pose proof Wf1 as [_ Hw1]. pose proof Wf2 as [_ Hw2].
  rewrite (apply_layers_app F _ _ _ _ _
             (widths_frame _ _ _ (Diagram.dom d2) Hw1)).
  change (ar_id (ob F (Diagram.dom (Diagram.tensor d1 d2))))
    with (Diagram.id (ob F (Diagram.dom d1 + Diagram.dom d2))).
  replace (Diagram.id (ob F (Diagram.dom d1 + Diagram.dom d2)))
    with (Diagram.tensor (Diagram.id (ob F (Diagram.dom d1)))
            (Diagram.id (ob F (Diagram.dom d2))))
    by (rewrite tensor_id_r, Hob; done).
  change (Diagram.dom (Diagram.tensor d1 d2))
    with (Diagram.dom d1 + Diagram.dom d2).
  rewrite (apply_layers_Diagram_frame _ _ _ _ _ _ Hw1 H1), bind_Ok.
  by apply (apply_layers_Diagram_shift _ _ _ _ _ _ _ Hw2).
Qed.

End Diagram_functor.

(** ** Calling a diagram *)

Lemma Diagram_call_unfold (d : Diagram.t) (values : list value) :
  Diagram_call d values
  = (image ← apply call_functor d; Function.call image values).
Proof. reflexivity. Qed.

Lemma call_functor_monoidal : monoidal (ob call_functor).
Proof. by split. Qed.

Lemma Diagram_call_id (n : nat) (xs : list value) :
  length xs = n → Diagram_call (Diagram.id n) xs = Ok (untuplify xs).
Proof. intros Hlen. rewrite Diagram_call_unfold. simpl. by apply id_call. Qed.

Lemma COPY_valid : valid_at call_functor COPY.
Proof.
  eexists. split; [reflexivity|]. split; [done|]. split; [done|].
  intros xs Hlen Hxs. rewrite call_eq by done. simpl. simpl in Hlen.
  split; [rewrite length_app; lia|by apply scalars_app].
Qed.

Lemma SWAP_valid : valid_at call_functor SWAP.
Proof.
  eexists. split; [reflexivity|]. split; [done|]. split; [done|].
  intros xs Hlen Hxs. rewrite call_eq by done. simpl.
  destruct xs as [|x [|y [|z xs]]]; try done. simpl.
  apply Forall_cons in Hxs as [Hx Hxs]. apply Forall_cons in Hxs as [Hy _].
  split; [done|]. by repeat constructor.
Qed.

(** C1, as the code has it: functors preserve composition, tensor and
    identities on tuples of scalars.  For a functor
    into [Function] whose object map is monoidal and whose arrow map is valid
    at the boxes of two well formed diagrams, the image of [d1 >> d2] and the
    composite of the images return the same value on every tuple of scalars
    of the length of the domain, and so do the image of [d1 @ d2] and the
    tensor of the images; the image of [Id(n)] is the identity arrow on the
    image of [n], which returns its argument tuple (a single value bare).  For
    a functor into [Diagram], the image of a composite is the composite of
    the images and the image of a tensor is the tensor of the images, as
    diagrams, so that calling them gives the same result on every tuple; the
    image of [Id(n)] is [Id] on the image of [n].  On a tuple with a
    component that is itself a tuple the two equations for functors into
    [Function] fail: see [functoriality_as_specified]. *)
Theorem functoriality :
  (∀ (ob : nat → nat) (ar : Box.t → outcome Function.t) (d1 d2 : Diagram.t),
     let F := PythonFunctor ob ar in
     monoidal ob → well_formed d1 → well_formed d2 →
     Forall (valid_at F) (Diagram.boxes d1) →
     Forall (valid_at F) (Diagram.boxes d2) →
     (Diagram.cod d1 = Diagram.dom d2 →
      ∃ d h h1 h2 h',
        Diagram.then_ d1 d2 = Ok d ∧ apply F d = Ok h ∧
        apply F d1 = Ok h1 ∧ apply F d2 = Ok h2 ∧
        Function.then_ h1 (Function.Fn h2) = Ok h' ∧
        ∀ xs, length xs = ob (Diagram.dom d1) → scalars xs →
          Function.call h xs = Function.call h' xs) ∧
     (∃ h h1 h2 h',
        apply F (Diagram.tensor d1 d2) = Ok h ∧
        apply F d1 = Ok h1 ∧ apply F d2 = Ok h2 ∧
        Function.tensor h1 (Function.Fn h2) = Ok h' ∧
        ∀ xs, length xs = ob (Diagram.dom d1 + Diagram.dom d2) →
          scalars xs → Function.call h xs = Function.call h' xs) ∧
     (∀ n xs, length xs = ob n →
        apply F (Diagram.id n) = Ok (Function.id (ob n)) ∧
        Function.call (Function.id (ob n)) xs = Ok (untuplify xs) ∧
        (scalars xs → run (Function.id (ob n)) xs = Ok xs))) ∧
  (∀ (ob : nat → nat) (ar : Box.t → outcome Diagram.t) (d1 d2 : Diagram.t),
     let F := CartesianFunctor ob ar in
     monoidal ob → well_formed d1 → well_formed d2 →
     Forall (valid_image F) (Diagram.boxes d1) →
     Forall (valid_image F) (Diagram.boxes d2) →
     (Diagram.cod d1 = Diagram.dom d2 →
      ∃ d X X1 X2 X',
        Diagram.then_ d1 d2 = Ok d ∧ apply F d = Ok X ∧
        apply F d1 = Ok X1 ∧ apply F d2 = Ok X2 ∧
        Diagram.then_ X1 X2 = Ok X' ∧ X = X' ∧
        ∀ xs, Diagram_call X xs = Diagram_call X' xs) ∧
     (∃ X X1 X2,
        apply F (Diagram.tensor d1 d2) = Ok X ∧
        apply F d1 = Ok X1 ∧ apply F d2 = Ok X2 ∧
        X = Diagram.tensor X1 X2 ∧
        ∀ xs, Diagram_call X xs = Diagram_call (Diagram.tensor X1 X2) xs) ∧
     (∀ n xs, length xs = ob n →
        apply F (Diagram.id n) = Ok (Diagram.id (ob n)) ∧
        Diagram_call (Diagram.id (ob n)) xs = Ok (untuplify xs))).
Proof.
  split.
  - intros ob ar d1 d2 F Hmon Wf1 Wf2 V1 V2. split; [|split].
    + by apply (Function_functor_then F).
    + by apply (Function_functor_tensor F).
    + intros n xs Hlen. split; [reflexivity|]. split; [by apply id_call|].
      by apply id_run.
  - intros ob ar d1 d2 F Hmon Wf1 Wf2 V1 V2. split; [|split].
    + intros Hcod.
      destruct (Diagram_functor_then F Hmon d1 d2) as (d & X & X1 & X2 & H);
        try done.
      destruct H as (Hd & HX & H1 & H2 & HX').
      by exists d, X, X1, X2, X.
    + destruct (Diagram_functor_tensor F Hmon d1 d2)
        as (X1 & X2 & H1 & H2 & HX); try done.
      by exists (Diagram.tensor X1 X2), X1, X2.
    + intros n xs Hlen. split; [reflexivity|]. by apply Diagram_call_id.
Qed.

Lemma functoriality_witness :
  ∃ d h h1 h2 h',
    Diagram.then_ (Diagram.of_box COPY) (Diagram.of_box SWAP) = Ok d ∧
    apply call_functor d = Ok h ∧
    apply call_functor (Diagram.of_box COPY) = Ok h1 ∧
    apply call_functor (Diagram.of_box SWAP) = Ok h2 ∧
    Function.then_ h1 (Function.Fn h2) = Ok h' ∧
    Function.call h [VInt 7] = Function.call h' [VInt 7].
Proof.
  destruct functoriality as [Hfun _].
  destruct (Hfun (ob call_functor) (ar call_functor)
              (Diagram.of_box COPY) (Diagram.of_box SWAP)) as [Hthen _].
  - apply call_functor_monoidal.
  - split; reflexivity.
  - split; reflexivity.
  - repeat constructor. apply COPY_valid.
  - repeat constructor. apply SWAP_valid.
  - destruct (Hthen eq_refl) as (d & h & h1 & h2 & h' & Hd & Hh & H1 & H2 & Hh' & Hcall).
    exists d, h, h1, h2, h'. repeat split; try done.
    apply Hcall; [reflexivity|]. by repeat constructor.
Defined.

Lemma probe_valid : valid_at call_functor probe.
Proof.
  eexists. split; [reflexivity|]. split; [done|]. split; [done|].
  intros xs Hlen Hxs. rewrite call_eq by done. simpl.
  destruct xs as [|x [|y xs]]; try done.
  apply Forall_cons in Hxs as [Hx _]. rewrite Hx. simpl.
  split; [done|]. by repeat constructor.
Qed.

(** C1, as worded: the equations do not hold on every tuple of the right
    length.  Each identity arrow hands a tuple of one value over as the bare
    value, so the composite of the images of [Id(1)] and of a box, which has
    one identity more than the image of [Id(1) >> box], shows the box the
    integer [1] where the other shows it the tuple [(1,)], on the argument
    [((1,),)]; the tensor of the images differs in the same way from the
    image of [Id(1) @ box] on the arguments [5, (1,)]. *)
Lemma functoriality_as_specified_fails :
  ¬ functoriality_as_specified ∧
  (∃ d h h1 h2 h',
     Diagram.then_ (Diagram.id 1) (Diagram.of_box probe) = Ok d ∧
     apply call_functor d = Ok h ∧
     apply call_functor (Diagram.id 1) = Ok h1 ∧
     apply call_functor (Diagram.of_box probe) = Ok h2 ∧
     Function.then_ h1 (Function.Fn h2) = Ok h' ∧
     Function.call h [VTuple [VTuple [VInt 1]]] = Ok (VInt 0) ∧
     Function.call h' [VTuple [VTuple [VInt 1]]] = Ok (VInt 1)) ∧
  (∃ h h1 h2 h',
     apply call_functor (Diagram.tensor (Diagram.id 1) (Diagram.of_box probe))
     = Ok h ∧
     apply call_functor (Diagram.id 1) = Ok h1 ∧
     apply call_functor (Diagram.of_box probe) = Ok h2 ∧
     Function.tensor h1 (Function.Fn h2) = Ok h' ∧
     Function.call h [VInt 5; VTuple [VInt 1]] = Ok (VTuple [VInt 5; VInt 0]) ∧
     Function.call h' [VInt 5; VTuple [VInt 1]]
     = Ok (VTuple [VInt 5; VInt 1])).
Proof.
  split; [|split].
  - intros Hspec.
    destruct (Hspec (ob call_functor) (ar call_functor) (Diagram.id 1)
                (Diagram.of_box probe)) as [Hthen _].
    + apply call_functor_monoidal.
    + by split.
    + by split.
    + constructor.
    + repeat constructor. apply probe_valid.
    + specialize (Hthen eq_refl _ _ _ _ _ eq_refl eq_refl eq_refl eq_refl
                    eq_refl [VTuple [VTuple [VInt 1]]] eq_refl).
      vm_compute in Hthen. discriminate Hthen.
  - eexists _, _, _, _, _. repeat (split; [reflexivity|]). reflexivity.
  - eexists _, _, _, _. repeat (split; [reflexivity|]). reflexivity.
Qed.

(** ** The generator [Copy] *)

(** *** The diagram that the loops build *)

Lemma row_S (b : Box.t) (w k : nat) :
  row b w (S k) = (b, 0%Z) :: shift w (row b w k).
Proof.
  unfold row, shift. simpl. f_equal. rewrite <- seq_shift, !map_map.
  apply map_ext. intros j. simpl. f_equal. lia.
Qed.

(** Tensoring [n] times with a box appends a row of that box. *)
Lemma tensor_loop (b : Box.t) (n s : nat) (d : Diagram.t) :
  length (Diagram.boxes d) = length (Diagram.offsets d) →
  let r := foldl (λ result i, Diagram.tensor result (Diagram.of_box b))
             d (seq s n) in
  Diagram.dom r = Diagram.dom d + n * Box.dom b ∧
  Diagram.cod r = Diagram.cod d + n * Box.cod b ∧
  length (Diagram.boxes r) = length (Diagram.offsets r) ∧
  zip (Diagram.boxes r) (Diagram.offsets r)
  = zip (Diagram.boxes d) (Diagram.offsets d)
    ++ shift (Diagram.cod d) (row b (Box.cod b) n).
Proof.
  revert s d. induction n as [|n IH]; intros s d Hlen.
  - simpl. rewrite app_nil_r. repeat split; try done; lia.
  - cbn [seq foldl].
    destruct (IH (S s) (Diagram.tensor d (Diagram.of_box b)))
      as (E1 & E2 & E3 & E4).
    { simpl. rewrite !length_app. simpl. lia. }
    split; [rewrite E1; simpl; lia|]. split; [rewrite E2; simpl; lia|].
    split; [exact E3|]. rewrite E4, row_S. simpl.
    rewrite zip_with_app by done. rewrite <- app_assoc. f_equal.
    simpl. f_equal. unfold shift. rewrite !map_map.
    apply map_ext. intros [b' o]. simpl. f_equal. lia.
Qed.

Lemma shift_0_layers (l : list (Box.t * Z)) : shift 0 l = l.
Proof.
  unfold shift. rewrite <- (map_id l) at 2. apply map_ext.
  intros [b o]. simpl. f_equal. lia.
Qed.

(** The layer [Id(i) @ swaps @ Id(i)] of the second loop. *)
Lemma Copy_layer (n i : nat) :
  i ≤ n →
  let swaps := foldl (λ swaps j, Diagram.tensor swaps (Diagram.of_box SWAP))
                 (Diagram.id 0) (seq 0 (n - i)) in
  let layer :=
    Diagram.tensor (Diagram.tensor (Diagram.id i) swaps) (Diagram.id i) in
  Diagram.dom layer = 2 * n ∧ Diagram.cod layer = 2 * n ∧
  length (Diagram.boxes layer) = length (Diagram.offsets layer) ∧
  zip (Diagram.boxes layer) (Diagram.offsets layer)
  = shift i (row SWAP 2 (n - i)).
Proof.
  intros Hi swaps layer.
  destruct (tensor_loop SWAP (n - i) 0 (Diagram.id 0) eq_refl)
    as (E1 & E2 & E3 & E4).
  fold swaps in E1, E2, E3, E4. simpl in E1, E2, E4.
  rewrite shift_0_layers in E4.
  unfold layer. rewrite Diagram_layer. simpl.
  rewrite E1, E2, length_map, zip_shift, E4. repeat split; try done; lia.
Qed.

(** The second loop appends its layers. *)
Lemma Copy_loop (n k s : nat) (d : Diagram.t) :
  s + k ≤ n + 1 → Diagram.cod d = 2 * n →
  length (Diagram.boxes d) = length (Diagram.offsets d) →
  ∃ r,
    for_each (seq s k) (λ result i,
      let swaps := Diagram.id 0 in
      let swaps :=
        foldl (λ swaps j, Diagram.tensor swaps (Diagram.of_box SWAP))
              swaps (seq 0 (n - i)) in
      Diagram.then_ result
        (Diagram.tensor (Diagram.tensor (Diagram.id i) swaps) (Diagram.id i)))
      d = Ok r ∧
    Diagram.dom r = Diagram.dom d ∧ Diagram.cod r = 2 * n ∧
    length (Diagram.boxes r) = length (Diagram.offsets r) ∧
    zip (Diagram.boxes r) (Diagram.offsets r)
    = zip (Diagram.boxes d) (Diagram.offsets d)
      ++ flat_map (λ i, shift i (row SWAP 2 (n - i))) (seq s k).
Proof.
  revert s d. induction k as [|k IH]; intros s d Hk Hcod Hlen.
  - exists d. simpl. by rewrite app_nil_r.
  - destruct (Copy_layer n s) as (D & C & L & Z); [lia|].
    cbn [seq for_each]. cbv zeta in D, C, L, Z |- *.
    rewrite then_ok by lia. rewrite bind_Ok.
    match goal with
    | |- context [for_each _ _ ?d'] =>
        destruct (IH (S s) d') as (r & Hr & Dr & Cr & Lr & Zr);
          [lia|exact C|
           cbn [Diagram.boxes Diagram.offsets]; rewrite !length_app; lia|]
    end.
    exists r. split; [exact Hr|]. split; [exact Dr|]. split; [exact Cr|].
    split; [exact Lr|]. rewrite Zr. simpl.
    rewrite zip_with_app by done. rewrite <- app_assoc. do 2 f_equal.
    exact Z.
Qed.

Lemma Copy_closed_form (n : nat) :
  ∃ d, Copy n = Ok d ∧
       Diagram.dom d = n ∧ Diagram.cod d = 2 * n ∧
       length (Diagram.boxes d) = length (Diagram.offsets d) ∧
       zip (Diagram.boxes d) (Diagram.offsets d) = Copy_layers n.
Proof.
  unfold Copy.
  destruct (tensor_loop COPY n 0 (Diagram.id 0) eq_refl)
    as (E1 & E2 & E3 & E4).
  cbv zeta in E1, E2, E3, E4 |- *. simpl in E1, E2, E4.
  rewrite shift_0_layers in E4.
  match goal with
  | |- context [for_each _ _ ?d'] =>
      destruct (Copy_loop n (n - 1) 1 d') as (r & Hr & Dr & Cr & Lr & Zr);
        [lia|lia|done|]
  end.
  cbv zeta in Hr. rewrite Hr, bind_Ok. eexists. split; [reflexivity|]. simpl.
  repeat split; try done. by rewrite Zr, E4.
Qed.

(** *** Rows of boxes *)

Lemma row_boxes (b : Box.t) (w k : nat) : (row b w k).*1 = replicate k b.
Proof.
  induction k as [|k IH]; [done|].
  by rewrite row_S, fmap_cons, shift_boxes, IH.
Qed.

Lemma row_valid (F : Functor Function.t) (b : Box.t) (w k : nat) :
  valid_at F b → Forall (valid_at F) (row b w k).*1.
Proof. intros Hb. rewrite row_boxes. by apply Forall_replicate. Qed.

Lemma widths_row (b : Box.t) (k : nat) :
  widths (k * Box.dom b) (row b (Box.cod b) k) = Some (k * Box.cod b).
Proof.
  induction k as [|k IH]; [done|].
  rewrite row_S. cbn [widths].
  rewrite (proj2 (Z.leb_le 0 0)) by lia.
  rewrite (proj2 (Nat.leb_le _ _)) by (simpl; lia). cbn [andb].
  replace (Z.to_nat 0 + Box.cod b + (S k * Box.dom b - Z.to_nat 0 - Box.dom b))
    with (Box.cod b + k * Box.dom b) by lia.
  by rewrite (widths_shift _ _ _ (Box.cod b) IH).
Qed.

(** A row of [SWAP] behind [i] wires maps width [2 n] to itself. *)
Lemma widths_swaps (n i : nat) :
  i ≤ n → widths (2 * n) (shift i (row SWAP 2 (n - i))) = Some (2 * n).
Proof.
  intros Hi. pose proof (widths_row SWAP (n - i)) as Hrow.
  apply (widths_frame _ _ _ i) in Hrow.
  apply (widths_shift _ _ _ i) in Hrow. simpl in Hrow.
  replace (2 * n) with (i + ((n - i) * 2 + i)) by lia. exact Hrow.
Qed.

Lemma widths_Copy_layers (n : nat) : widths n (Copy_layers n) = Some (2 * n).
Proof.
  unfold Copy_layers. rewrite widths_app.
  pose proof (widths_row COPY n) as Hrow. simpl in Hrow.
  rewrite Nat.mul_1_r in Hrow. rewrite Hrow. simpl.
  assert (∀ k s, s + k ≤ n + 1 →
    widths (n + (n + 0))
      (flat_map (λ i, shift i (row SWAP 2 (n - i))) (seq s k))
    = Some (n + (n + 0))) as Hloop.
  { induction k as [|k IH]; intros s Hs; [done|].
    cbn [seq flat_map]. rewrite widths_app.
    pose proof (widths_swaps n s) as Hw. simpl in Hw. rewrite Hw by lia.
    apply IH. lia. }
  replace (n * 2) with (n + (n + 0)) by lia. apply Hloop. lia.
Qed.

Lemma Copy_layers_valid (n : nat) :
  Forall (valid_at call_functor) (Copy_layers n).*1.
Proof.
  unfold Copy_layers. rewrite fmap_app. apply Forall_app.
  split; [apply row_valid, COPY_valid|].
  generalize (seq 1 (n - 1)). intros l. induction l as [|i l IH]; [done|].
  cbn [flat_map]. rewrite fmap_app. apply Forall_app. split; [|exact IH].
  rewrite shift_boxes. apply row_valid, SWAP_valid.
Qed.

(** *** What the rows compute *)

Lemma interleave_cons (x y : value) (xs ys : list value) :
  interleave (x :: xs) (y :: ys) = x :: y :: interleave xs ys.
Proof. reflexivity. Qed.

Lemma interleave_length (xs ys : list value) :
  length xs = length ys → length (interleave xs ys) = length xs * 2.
Proof.
  revert ys. induction xs as [|x xs IH]; intros [|y ys] Hlen; try done.
  rewrite interleave_cons. simpl. rewrite IH by (simpl in Hlen; lia). lia.
Qed.

Lemma interleave_scalars (xs ys : list value) :
  scalars xs → scalars ys → scalars (interleave xs ys).
Proof.
  revert ys. induction xs as [|x xs IH]; intros [|y ys] Sx Sy;
    try by constructor.
  rewrite interleave_cons.
  apply Forall_cons in Sx as [Hx Sx]. apply Forall_cons in Sy as [Hy Sy].
  repeat constructor; try done. by apply IH.
Qed.

Lemma den_cons_0 (b : Box.t) (f : Function.t) (ls : list (Box.t * Z))
    (chunk rest : list value) :
  ar call_functor b = Ok f → length chunk = Box.dom b →
  den call_functor ((b, 0%Z) :: ls) (chunk ++ rest)
  = (ys ← run f chunk; den call_functor ls (ys ++ rest)).
Proof.
  intros Hf Hlen. cbn [den]. rewrite Hf, bind_Ok.
  change (ob call_functor (Z.to_nat 0)) with 0.
  change (ob call_functor (Box.dom b)) with (Box.dom b).
  rewrite drop_0, take_0, take_app_length', drop_app_length' by done.
  done.
Qed.

Lemma den_row_COPY (xs : list value) :
  scalars xs →
  den call_functor (row COPY 2 (length xs)) xs = Ok (interleave xs xs).
Proof.
  induction xs as [|x xs IH]; intros Sx; [done|].
  apply Forall_cons in Sx as [Hx Sx].
  cbn [length]. rewrite row_S.
  change (x :: xs) with ([x] ++ xs) at 1.
  rewrite (den_cons_0 COPY _ _ [x] xs eq_refl eq_refl).
  change (run _ [x]) with (Ok [x; x] : outcome (list value)).
  rewrite bind_Ok.
  pose proof (widths_row COPY (length xs)) as Hrow. simpl in Hrow.
  rewrite Nat.mul_1_r in Hrow.
  rewrite (den_shift call_functor call_functor_monoidal _ 2 (length xs) _ xs
             [x; x] Hrow); try done; [|apply row_valid, COPY_valid].
  by rewrite IH.
Qed.

Lemma den_row_SWAP (xs ys : list value) :
  length xs = length ys → scalars xs → scalars ys →
  den call_functor (row SWAP 2 (length xs)) (interleave xs ys)
  = Ok (interleave ys xs).
Proof.
  revert ys. induction xs as [|x xs IH]; intros [|y ys] Hlen Sx Sy; try done.
  apply Forall_cons in Sx as [Hx Sx]. apply Forall_cons in Sy as [Hy Sy].
  cbn [length]. rewrite row_S, !interleave_cons.
  change (x :: y :: interleave xs ys) with ([x; y] ++ interleave xs ys).
  rewrite (den_cons_0 SWAP _ _ [x; y] _ eq_refl eq_refl).
  change (run _ [x; y]) with (Ok [y; x] : outcome (list value)).
  rewrite bind_Ok.
  pose proof (widths_row SWAP (length xs)) as Hrow. simpl in Hrow.
  rewrite (den_shift call_functor call_functor_monoidal _ 2 (length xs * 2) _
             (interleave xs ys) [y; x] Hrow); try done.
  - rewrite IH by (done || (simpl in Hlen; lia)). done.
  - apply row_valid, SWAP_valid.
  - simpl. apply interleave_length. simpl in Hlen. lia.
  - by apply interleave_scalars.
Qed.

(** A layer of the second loop swaps the pairs in the middle. *)
Lemma den_swaps (l xs ys r : list value) :
  length xs = length ys →
  scalars l → scalars xs → scalars ys → scalars r →
  den call_functor (shift (length l) (row SWAP 2 (length xs)))
    (l ++ interleave xs ys ++ r)
  = Ok (l ++ interleave ys xs ++ r).
Proof.
  intros Hlen Sl Sx Sy Sr.
  pose proof (widths_row SWAP (length xs)) as Hrow. simpl in Hrow.
  rewrite (den_shift call_functor call_functor_monoidal _ (length l)
             (length xs * 2 + length r) _ _ l
             (widths_frame _ _ _ (length r) Hrow)); try done.
  - rewrite (den_frame call_functor call_functor_monoidal _
               (length xs * 2) _ _ r Hrow); try done.
    + by rewrite den_row_SWAP.
    + apply row_valid, SWAP_valid.
    + simpl. by apply interleave_length.
    + by apply interleave_scalars.
  - apply row_valid, SWAP_valid.
  - simpl. rewrite length_app, interleave_length by done. done.
  - apply scalars_app. split; [by apply interleave_scalars|done].
Qed.

(** *** The tuple between the layers *)

Lemma interleave_shift (b a : value) (xs ys : list value) :
  length xs = length ys →
  interleave (b :: ys) (xs ++ [a]) = b :: interleave xs ys ++ [a].
Proof.
  revert b ys. induction xs as [|x xs IH]; intros b [|y ys] Hlen; try done.
  cbn [app]. rewrite interleave_cons, IH by (simpl in Hlen; lia).
  by rewrite interleave_cons.
Qed.

(** Swapping the pairs in the middle of a state gives the next state. *)
Lemma Copy_state_step (xs : list value) (i : nat) :
  i < length xs →
  take i xs
  ++ interleave (drop i xs) (take (length xs - i) xs)
  ++ drop (length xs - i) xs
  = Copy_state xs (S i).
Proof.
  intros Hi. unfold Copy_state. set (n := length xs) in *.
  destruct (lookup_lt_is_Some_2 xs i) as [b Hb]; [done|].
  destruct (lookup_lt_is_Some_2 xs (n - S i)) as [a Ha]; [lia|].
  replace (n - i) with (S (n - S i)) by lia.
  rewrite (drop_S _ _ _ Hb), (take_S_r _ _ _ Ha), (take_S_r _ _ _ Hb).
  rewrite (drop_S _ _ _ Ha).
  rewrite interleave_shift by (rewrite length_take, length_drop; lia).
  cbn [app]. by rewrite <- !app_assoc.
Qed.

Lemma Copy_state_1 (xs : list value) :
  0 < length xs → Copy_state xs 1 = interleave xs xs.
Proof.
  intros Hlen. rewrite <- (Copy_state_step xs 0 Hlen).
  rewrite Nat.sub_0_r, take_0, drop_0, firstn_all, drop_all, app_nil_r. done.
Qed.

Lemma Copy_state_last (xs : list value) :
  Copy_state xs (length xs) = xs ++ xs.
Proof.
  unfold Copy_state. by rewrite Nat.sub_diag, firstn_all, drop_all, take_0, drop_0.
Qed.

Lemma den_Copy_loop (xs : list value) (k s : nat) :
  scalars xs → s + k ≤ length xs →
  den call_functor
    (flat_map (λ i, shift i (row SWAP 2 (length xs - i))) (seq s k))
    (Copy_state xs s)
  = Ok (Copy_state xs (s + k)).
Proof.
  intros Sx. revert s. induction k as [|k IH]; intros s Hs.
  - by rewrite Nat.add_0_r.
  - cbn [seq flat_map]. rewrite den_app.
    pose proof (den_swaps (take s xs) (take (length xs - s) xs) (drop s xs)
                  (drop (length xs - s) xs)) as Hswap.
    rewrite !length_take, length_drop in Hswap.
    rewrite !Nat.min_l in Hswap by lia.
    unfold Copy_state at 1. rewrite Hswap; try done.
    + rewrite bind_Ok, Copy_state_step by lia.
      rewrite IH by lia. f_equal. f_equal. lia.
    + by apply Forall_take.
    + by apply Forall_take.
    + by apply Forall_drop.
    + by apply Forall_drop.
Qed.

Lemma den_Copy_layers (xs : list value) :
  scalars xs → den call_functor (Copy_layers (length xs)) xs = Ok (xs ++ xs).
Proof.
  intros Sx. unfold Copy_layers. rewrite den_app, den_row_COPY by done.
  rewrite bind_Ok. destruct xs as [|x xs]; [done|].
  rewrite <- Copy_state_1 by (simpl; lia).
  rewrite den_Copy_loop; [|done|simpl; lia].
  rewrite <- Copy_state_last. f_equal. f_equal. simpl. lia.
Qed.

(** Calling a well formed diagram whose boxes carry well typed functions
    computes the denotation of its layers. *)
Lemma Diagram_call_den (d : Diagram.t) (xs : list value) :
  well_formed d → Forall (valid_at call_functor) (Diagram.boxes d) →
  length xs = Diagram.dom d → scalars xs →
  Diagram_call d xs
  = (ys ← den call_functor (zip (Diagram.boxes d) (Diagram.offsets d)) xs;
     Ok (untuplify ys)).
Proof.
  intros Hwf Hvalid Hlen Sx. rewrite Diagram_call_unfold.
  destruct (apply_den call_functor call_functor_monoidal d Hwf Hvalid)
    as (h & Hh & Dh & Ch & Wh & Nh & Rh).
  rewrite Hh, bind_Ok. rewrite (normal_call h); [|done|by rewrite Dh|done].
  by rewrite Rh.
Qed.

(** C4: for every [n], [Copy(n)] is constructed without error; it goes from
    arity [n] to arity [2 n]; its layers are a row of [n] boxes [COPY], the
    box [j] at offset [2 j], followed for [i] from [1] to [n - 1] by a row of
    [n - i] boxes [SWAP] between [i] wires on the left and [i] on the right,
    the box [j] at offset [i + 2 j]; called on [n] scalars it returns them
    twice, one block after the other.  [Copy(3)] called on [(0, 1, 2)]
    returns [(0, 1, 2, 0, 1, 2)]. *)
Theorem Copy_diagonal (n : nat) :
  (∃ d, Copy n = Ok d ∧
        Diagram.dom d = n ∧ Diagram.cod d = 2 * n ∧
        well_formed d ∧
        zip (Diagram.boxes d) (Diagram.offsets d)
        = map (λ j, (COPY, Z.of_nat (j * 2))) (seq 0 n)
          ++ flat_map (λ i, map (λ j, (SWAP, (Z.of_nat (j * 2) + Z.of_nat i)%Z))
                              (seq 0 (n - i)))
               (seq 1 (n - 1)) ∧
        ∀ xs, length xs = n → scalars xs →
          Diagram_call d xs = Ok (untuplify (xs ++ xs))) ∧
  (d ← Copy 3; Diagram_call d (map VInt [0; 1; 2]%Z))
  = Ok (VTuple (map VInt [0; 1; 2; 0; 1; 2]%Z)).
Proof.
  split; [|vm_compute; reflexivity].
  destruct (Copy_closed_form n) as (d & Hd & Dd & Cd & Ld & Zd).
  assert (well_formed d) as Hwf.
  { split; [done|]. rewrite Zd, Dd, Cd. apply widths_Copy_layers. }
  exists d. split; [done|]. split; [done|]. split; [done|].
  split; [done|]. split.
  - rewrite Zd. unfold Copy_layers, row, shift. f_equal.
    apply flat_map_ext. intros i. by rewrite map_map.
  - intros xs Hlen Sx. rewrite Diagram_call_den; try done.
    + rewrite Zd, <- Hlen, den_Copy_layers by done. done.
    + rewrite <- (layers_boxes d Hwf), Zd. apply Copy_layers_valid.
    + congruence.
Qed.

Lemma Copy_diagonal_witness :
  ∃ d, Copy 2 = Ok d ∧
       Diagram_call d [VInt 5; VInt 6]
       = Ok (VTuple [VInt 5; VInt 6; VInt 5; VInt 6]).
Proof.
  destruct (Copy_diagonal 2) as [(d & Hd & _ & _ & _ & _ & Hcall) _].
  exists d. split; [exact Hd|].
  apply (Hcall [VInt 5; VInt 6]); [reflexivity|]. by repeat constructor.
Defined.

(** ** Tuples of length one and bare values *)














(** * Further properties of the code *)

(** ** [tuplify] and [untuplify]: when the round trips hold *)

Lemma no_self_nesting (l : list value) : l ≠ [VTuple l].
Proof.
  intros Hl. apply (f_equal (λ xs, depth (VTuple xs))) in Hl.
  cbn [depth foldr] in Hl. fold depth in Hl. cbn [depth] in Hl. lia.
Qed.

Lemma tuplify_untuplify_args (xs : list value) :
  (∀ l, xs ≠ [VTuple l]) → tuplify (untuplify xs) = xs.
Proof.
  destruct xs as [|[z|l] [|b xs]]; simpl; try done.
  intros H. by destruct (H l).
Qed.

(** X1: [untuplify( *tuplify(x))] gives [x] back exactly when [x] is no tuple
    of length one, and [tuplify(untuplify( *xs))] gives [xs] back exactly when
    [xs] is not a single argument that is a tuple. *)
Theorem round_trip_exactly :
  (∀ x, untuplify (tuplify x) = x ↔ singleton_tuple x = false) ∧
  (∀ xs, tuplify (untuplify xs) = xs ↔ ∀ l, xs ≠ [VTuple l]).
Proof.
  split.
  - intros [z|[|a [|b l]]]; simpl; try done.
    split; [|done]. intros Ha. by destruct (no_self_nesting [a]); rewrite Ha at 1.
  - intros [|[z|l] [|b xs]]; simpl; try done.
    split; [|intros H; by destruct (H l)].
    intros Hl. by destruct (no_self_nesting l).
Qed.

(** ** [Function]: tensor, associativity and identities *)

(** X2: [tensor] raises [TypeError] on an operand that is no [Function] and
    never an arity error; the domain and the codomain of the result are the
    sums of those of the operands; the result raises the arity error when
    called on a tuple of another length than the sum of the domains, and on
    [xs1 + xs2] it calls [self] on [xs1], then [other] on [xs2], and returns
    the concatenation of the two results as tuples, a single value bare. *)
Theorem Function_tensor_contract (self : Function.t) (other : Function.object) :
  (∀ v, other = Function.NotFn v →
     Function.tensor self other = Raise TypeError) ∧
  (∀ g, other = Function.Fn g →
     ∃ h, Function.tensor self other = Ok h ∧
          Function.dom h = Function.dom self + Function.dom g ∧
          Function.cod h = Function.cod self + Function.cod g ∧
          (∀ xs, length xs ≠ Function.dom self + Function.dom g →
             Function.call h xs = Raise AxiomError) ∧
          (∀ xs1 xs2,
             length xs1 = Function.dom self → length xs2 = Function.dom g →
             Function.call h (xs1 ++ xs2)
             = (r0 ← Function.call self xs1;
                r1 ← Function.call g xs2;
                Ok (untuplify (tuplify r0 ++ tuplify r1))))).
Proof.
  split; [by intros v ->|]. intros g ->. eexists. split; [reflexivity|].
  split; [done|]. split; [done|]. split.
  - intros xs Hlen. by apply call_arity_error.
  - intros xs1 xs2 H1 H2.
    rewrite call_eq by (simpl; rewrite length_app; lia). simpl.
    unfold Function.product.
    by rewrite take_app_length', drop_app_length'.
Qed.

Lemma Function_tensor_contract_witness :
  ∃ h, Function.tensor (Function.id 1) (Function.Fn (Function.id 1)) = Ok h ∧
       Function.call h [VInt 1; VInt 2] = Ok (VTuple [VInt 1; VInt 2]) ∧
       Function.call h [VInt 1] = Raise AxiomError.
Proof.
  destruct (Function_tensor_contract (Function.id 1)
              (Function.Fn (Function.id 1))) as [_ Hfn].
  destruct (Hfn _ eq_refl) as (h & Hh & _ & _ & Herr & Hcall).
  exists h. split; [exact Hh|]. split.
  - exact (Hcall [VInt 1] [VInt 2] eq_refl eq_refl).
  - apply Herr. simpl. lia.
Defined.

Lemma then_call (f g h : Function.t) (xs : list value) :
  Function.then_ f (Function.Fn g) = Ok h →
  Function.call h xs = (r ← Function.call f xs; Function.call g (tuplify r)).
Proof.
  unfold Function.then_. destruct (negb _); [done|]. intros [= <-].
  apply call_then.
Qed.

Lemma then_dims (f g h : Function.t) :
  Function.then_ f (Function.Fn g) = Ok h →
  Function.cod f = Function.dom g ∧
  Function.dom h = Function.dom f ∧ Function.cod h = Function.cod g.
Proof.
  unfold Function.then_.
  destruct (Function.cod f =? Function.dom g) eqn:E; [|done].
  apply Nat.eqb_eq in E. by intros [= <-].
Qed.

Lemma then_raises (f g : Function.t) :
  Function.cod f ≠ Function.dom g →
  Function.then_ f (Function.Fn g) = Raise AxiomError.
Proof.
  intros Hne. unfold Function.then_. by rewrite (proj2 (Nat.eqb_neq _ _) Hne).
Qed.

(** X3: [then] is associative: [(f >> g) >> h] and [f >> (g >> h)] raise the
    same exception or are both built, and then they return the same result,
    or raise the same exception, on every call. *)
Theorem Function_then_assoc (f g h : Function.t) :
  alike same_calls
    (fg ← Function.then_ f (Function.Fn g); Function.then_ fg (Function.Fn h))
    (gh ← Function.then_ g (Function.Fn h); Function.then_ f (Function.Fn gh)).
Proof.
  destruct (decide (Function.cod f = Function.dom g)) as [Hfg|Hfg],
    (decide (Function.cod g = Function.dom h)) as [Hgh|Hgh].
  - destruct (then_shape f g Hfg) as (fg & Efg & Dfg & Cfg & _).
    destruct (then_shape g h Hgh) as (gh & Egh & Dgh & Cgh & _).
    destruct (then_shape fg h) as (l & El & Dl & Cl & _); [congruence|].
    destruct (then_shape f gh) as (r & Er & Dr & Cr & _); [congruence|].
    rewrite Efg, Egh, !bind_Ok, El, Er. simpl.
    split; [congruence|]. split; [congruence|]. intros xs.
    rewrite (then_call fg h l xs El), (then_call f g fg xs Efg).
    rewrite (then_call f gh r xs Er), bind_assoc.
    apply bind_ext. intros v _. by rewrite (then_call g h gh _ Egh).
  - destruct (then_shape f g Hfg) as (fg & Efg & Dfg & Cfg & _).
    rewrite Efg, bind_Ok, (then_raises g h Hgh).
    by rewrite then_raises by congruence.
  - rewrite (then_raises f g Hfg).
    destruct (Function.then_ g (Function.Fn h)) as [gh|e] eqn:Egh.
    + apply then_dims in Egh as (_ & Dgh & _). rewrite bind_Ok.
      by rewrite then_raises by congruence.
    + unfold Function.then_ in Egh.
      destruct (negb _); by inversion Egh.
  - by rewrite (then_raises f g Hfg), (then_raises g h Hgh).
Qed.

(** X4: [Function.id(len(f.dom)) >> f] is built, and it returns what [f]
    returns on every argument list that is not a single tuple; on a single
    argument that is a tuple, the identity hands the tuple over and [f] is
    called on its components. *)
Theorem Function_id_then (f : Function.t) :
  ∃ h, Function.then_ (Function.id (Function.dom f)) (Function.Fn f) = Ok h ∧
       Function.dom h = Function.dom f ∧ Function.cod h = Function.cod f ∧
       (∀ xs, (∀ l, xs ≠ [VTuple l]) →
          Function.call h xs = Function.call f xs) ∧
       (∀ l, Function.dom f = 1 →
          Function.call h [VTuple l] = Function.call f l).
Proof.
  eexists. split; [by apply then_Fn_ok|]. split; [done|]. split; [done|].
  split.
  - intros xs Hxs. rewrite (call_then (Function.id _) f).
    destruct (decide (length xs = Function.dom f)) as [Hlen|Hlen].
    + rewrite id_call by done. simpl.
      by rewrite tuplify_untuplify_args.
    + by rewrite !call_arity_error.
  - intros l Hdom. rewrite (call_then (Function.id _) f).
    by rewrite id_call.
Qed.

Lemma Function_id_then_witness :
  ∃ h, Function.then_ (Function.id 1)
         (Function.Fn (Function.mk 1 2 (λ x, Ok (VTuple (x ++ x))))) = Ok h ∧
       Function.call h [VInt 7] = Ok (VTuple [VInt 7; VInt 7]) ∧
       Function.call h [VTuple [VInt 1; VInt 2]] = Raise AxiomError.
Proof.
  destruct (Function_id_then (Function.mk 1 2 (λ x, Ok (VTuple (x ++ x)))))
    as (h & Hh & _ & _ & Hcall & Htuple).
  exists h. split; [exact Hh|]. split.
  - rewrite Hcall; [reflexivity|]. intros l [=].
  - rewrite Htuple; reflexivity.
Defined.

(** X5: [f >> Function.id(len(f.cod))] is built; called, it checks at run
    time that [f] returned as many values as its codomain says, raising the
    arity error otherwise, and returns the result of [f] as a tuple, a single
    value bare.  On scalars it returns what a well typed [f] that returns no
    tuple of length one returns. *)
Theorem Function_then_id (f : Function.t) :
  ∃ h, Function.then_ f (Function.Fn (Function.id (Function.cod f))) = Ok h ∧
       Function.dom h = Function.dom f ∧ Function.cod h = Function.cod f ∧
       (∀ xs, Function.call h xs
              = (r ← Function.call f xs;
                 if length (tuplify r) =? Function.cod f
                 then Ok (untuplify (tuplify r))
                 else Raise AxiomError)) ∧
       (well_typed f → normal f →
        ∀ xs, length xs = Function.dom f → scalars xs →
          Function.call h xs = Function.call f xs).
Proof.
  destruct (then_shape f (Function.id (Function.cod f)) eq_refl)
    as (h & Hh & Dh & Ch & _).
  exists h. split; [done|]. split; [done|]. split; [done|].
  assert (∀ xs, Function.call h xs
                = (r ← Function.call f xs;
                   if length (tuplify r) =? Function.cod f
                   then Ok (untuplify (tuplify r))
                   else Raise AxiomError)) as Hcall.
  { intros xs. rewrite (then_call _ _ _ xs Hh). apply bind_ext. intros r _.
    unfold Function.call. simpl. by destruct (_ =? _). }
  split; [done|]. intros Wf Nf xs Hlen Sx. rewrite Hcall.
  specialize (Wf xs Hlen Sx). specialize (Nf xs Hlen Sx).
  destruct (Function.call f xs) as [r|e]; [|done]. simpl.
  destruct Wf as [Lr _]. by rewrite (proj2 (Nat.eqb_eq _ _) Lr), <- Nf.
Qed.

Lemma Function_then_id_witness :
  ∃ h, Function.then_ (Function.mk 1 1 (λ x, Ok (VTuple (x ++ x))))
         (Function.Fn (Function.id 1)) = Ok h ∧
       Function.call h [VInt 7] = Raise AxiomError.
Proof.
  destruct (Function_then_id (Function.mk 1 1 (λ x, Ok (VTuple (x ++ x)))))
    as (h & Hh & _ & _ & Hcall & _).
  exists h. split; [exact Hh|]. rewrite Hcall. reflexivity.
Defined.

(** X6: tensoring with the identity on no wire, on either side, keeps the
    domain and the codomain and returns on every call the result of [f] as a
    tuple, a single value bare. *)
Theorem Function_tensor_id_0 (f : Function.t) :
  ∃ l r,
    Function.tensor (Function.id 0) (Function.Fn f) = Ok l ∧
    Function.tensor f (Function.Fn (Function.id 0)) = Ok r ∧
    Function.dom l = Function.dom f ∧ Function.cod l = Function.cod f ∧
    Function.dom r = Function.dom f ∧ Function.cod r = Function.cod f ∧
    ∀ xs,
      Function.call l xs
      = (v ← Function.call f xs; Ok (untuplify (tuplify v))) ∧
      Function.call r xs
      = (v ← Function.call f xs; Ok (untuplify (tuplify v))).
Proof.
  eexists _, _. split; [reflexivity|]. split; [reflexivity|]. simpl.
  split; [done|]. split; [done|]. split; [lia|]. split; [lia|].
  intros xs. destruct (decide (length xs = Function.dom f)) as [Hlen|Hlen].
  - split.
    + rewrite call_eq by done. simpl. unfold Function.product. simpl.
      by rewrite drop_0.
    + rewrite call_eq by (simpl; lia). simpl. unfold Function.product.
      rewrite take_ge, drop_ge by lia. apply bind_ext. intros v _.
      simpl. by rewrite app_nil_r.
  - rewrite (call_arity_error f xs Hlen).
    split; apply call_arity_error; simpl; lia.
Qed.

(** X7: [tensor] is associative on well typed arrows: called on scalars,
    [(f @ g) @ h] and [f @ (g @ h)] return the same result or raise the same
    exception. *)
Theorem Function_tensor_assoc (f g h : Function.t) :
  well_typed f → well_typed g → well_typed h →
  ∃ fg gh l r,
    Function.tensor f (Function.Fn g) = Ok fg ∧
    Function.tensor fg (Function.Fn h) = Ok l ∧
    Function.tensor g (Function.Fn h) = Ok gh ∧
    Function.tensor f (Function.Fn gh) = Ok r ∧
    Function.dom l = Function.dom r ∧ Function.cod l = Function.cod r ∧
    ∀ xs, length xs = Function.dom l → scalars xs →
      Function.call l xs = Function.call r xs.
Proof.
  intros Wf Wg Wh.
  destruct (tensor_shape f g) as (fg & Efg & Dfg & Cfg & Tfg).
  destruct (Tfg Wf Wg) as [Wfg _].
  destruct (tensor_shape fg h) as (l & El & Dl & Cl & Tl).
  destruct (Tl Wfg Wh) as [Wl Nl].
  destruct (tensor_shape g h) as (gh & Egh & Dgh & Cgh & Tgh).
  destruct (Tgh Wg Wh) as [Wgh _].
  destruct (tensor_shape f gh) as (r & Er & Dr & Cr & Tr).
  destruct (Tr Wf Wgh) as [Wr Nr].
  exists fg, gh, l, r. repeat (split; [done || lia|]).
  intros xs Hlen Sx. apply normal_call_eq; try done; [lia|].
  rewrite <- (take_drop (Function.dom f + Function.dom g) xs) in Sx |- *.
  rewrite <- (take_drop (Function.dom f)
                (take (Function.dom f + Function.dom g) xs)) in Sx |- *.
  set (x1 := take (Function.dom f) (take (Function.dom f + Function.dom g) xs))
    in *.
  set (x2 := drop (Function.dom f) (take (Function.dom f + Function.dom g) xs))
    in *.
  set (x3 := drop (Function.dom f + Function.dom g) xs) in *.
  assert (length x1 = Function.dom f) as L1
    by (unfold x1; rewrite !length_take; lia).
  assert (length x2 = Function.dom g) as L2
    by (unfold x2; rewrite length_drop, length_take; lia).
  assert (length x3 = Function.dom h) as L3
    by (unfold x3; rewrite length_drop; lia).
  apply scalars_app in Sx as [S12 S3]. apply scalars_app in S12 as [S1 S2].
  assert (length (x1 ++ x2) = Function.dom fg) as L12
    by (rewrite length_app; lia).
  assert (length (x2 ++ x3) = Function.dom gh) as L23
    by (rewrite length_app; lia).
  assert (scalars (x1 ++ x2)) as S12 by by apply scalars_app.
  assert (scalars (x2 ++ x3)) as S23 by by apply scalars_app.
  rewrite (tensor_run fg h l) by done.
  rewrite (tensor_run f g fg) by done.
  rewrite <- app_assoc.
  rewrite (tensor_run f gh r) by done.
  rewrite (tensor_run g h gh) by done.
  rewrite !bind_assoc. apply bind_ext. intros a _.
  rewrite !bind_assoc. apply bind_ext. intros b _.
  rewrite !bind_Ok, !bind_assoc. apply bind_ext. intros c _.
  by rewrite !bind_Ok, app_assoc.
Qed.

Lemma Function_tensor_assoc_witness :
  ∃ fg gh l r,
    Function.tensor (Function.id 1) (Function.Fn (Function.id 1)) = Ok fg ∧
    Function.tensor fg (Function.Fn (Function.id 1)) = Ok l ∧
    Function.tensor (Function.id 1) (Function.Fn (Function.id 1)) = Ok gh ∧
    Function.tensor (Function.id 1) (Function.Fn gh) = Ok r ∧
    Function.call l [VInt 1; VInt 2; VInt 3]
    = Function.call r [VInt 1; VInt 2; VInt 3].
Proof.
  destruct (Function_tensor_assoc (Function.id 1) (Function.id 1)
              (Function.id 1)) as (fg & gh & l & r & Efg & El & Egh & Er & H);
    try apply id_well_typed.
  destruct H as (_ & _ & Hcall).
  exists fg, gh, l, r. repeat (split; [done|]).
  apply Hcall.
  - injection Efg as <-. injection El as <-. reflexivity.
  - by repeat constructor.
Defined.

Lemma normal_call_iff (f g : Function.t) (xs : list value) :
  normal f → normal g →
  length xs = Function.dom f → length xs = Function.dom g → scalars xs →
  (∀ ys, run f xs = Ok ys ↔ run g xs = Ok ys) →
  ∀ v, Function.call f xs = Ok v ↔ Function.call g xs = Ok v.
Proof.
  intros Nf Ng Lf Lg Sx Hrun v.
  rewrite (normal_call f xs), (normal_call g xs) by done.
  destruct (run f xs) as [ys|e] eqn:Ef, (run g xs) as [zs|e'] eqn:Eg; simpl.
  - destruct (Hrun ys) as [H _]. specialize (H eq_refl). by injection H as <-.
  - destruct (Hrun ys) as [H _]. by specialize (H eq_refl).
  - destruct (Hrun zs) as [_ H]. by specialize (H eq_refl).
  - done.
Qed.

(** X8: the interchange law.  For well typed arrows with [f] composable
    with [f'] and [g] with [g'], both [(f @ g) >> (f' @ g')] and
    [(f >> f') @ (g >> g')] are built, with the same domain and codomain,
    and on scalars one returns a value exactly when the other returns it.
    (When [g] and [f'] both raise, the first raises the exception of [g] and
    the second that of [f'].) *)
Theorem Function_interchange (f g f' g' : Function.t) :
  well_typed f → well_typed g → well_typed f' → well_typed g' →
  Function.cod f = Function.dom f' → Function.cod g = Function.dom g' →
  ∃ fg fg' l ff gg r,
    Function.tensor f (Function.Fn g) = Ok fg ∧
    Function.tensor f' (Function.Fn g') = Ok fg' ∧
    Function.then_ fg (Function.Fn fg') = Ok l ∧
    Function.then_ f (Function.Fn f') = Ok ff ∧
    Function.then_ g (Function.Fn g') = Ok gg ∧
    Function.tensor ff (Function.Fn gg) = Ok r ∧
    Function.dom l = Function.dom r ∧ Function.cod l = Function.cod r ∧
    ∀ xs v, length xs = Function.dom f + Function.dom g → scalars xs →
      (Function.call l xs = Ok v ↔ Function.call r xs = Ok v).
Proof.
  intros Wf Wg Wf' Wg' Hf Hg.
  destruct (tensor_shape f g) as (fg & Efg & Dfg & Cfg & Tfg).
  destruct (Tfg Wf Wg) as [Wfg Nfg].
  destruct (tensor_shape f' g') as (fg' & Efg' & Dfg' & Cfg' & Tfg').
  destruct (Tfg' Wf' Wg') as [Wfg' Nfg'].
  destruct (then_shape fg fg') as (l & El & Dl & Cl & Wl & Nl); [lia|].
  destruct (then_shape f f' Hf) as (ff & Eff & Dff & Cff & Wff & _).
  destruct (then_shape g g' Hg) as (gg & Egg & Dgg & Cgg & Wgg & _).
  destruct (tensor_shape ff gg) as (r & Er & Dr & Cr & Tr).
  destruct (Tr (Wff Wf Wf') (Wgg Wg Wg')) as [Wr Nr].
  exists fg, fg', l, ff, gg, r. repeat (split; [done || lia|]).
  intros xs v Hlen Sx. revert v.
  apply normal_call_iff; [by apply Nl|done|lia|lia|done|].
  rewrite <- (take_drop (Function.dom f) xs) in Sx |- *.
  set (x1 := take (Function.dom f) xs) in *.
  set (x2 := drop (Function.dom f) xs) in *.
  assert (length x1 = Function.dom f) as L1
    by (unfold x1; rewrite length_take; lia).
  assert (length x2 = Function.dom g) as L2
    by (unfold x2; rewrite length_drop; lia).
  apply scalars_app in Sx as [S1 S2].
  rewrite (then_run fg fg' l _ El), (tensor_run f g fg) by done.
  rewrite (tensor_run ff gg r) by (done || lia || by auto).
  rewrite (then_run f f' ff _ Eff), (then_run g g' gg _ Egg).
  intros ys.
  destruct (run f x1) as [a|e] eqn:Ea; [|done].
  apply (well_typed_run f) in Ea as [La Sa]; [|done..].
  destruct (run g x2) as [b|e] eqn:Eb.
  - apply (well_typed_run g) in Eb as [Lb Sb]; [|done..].
    rewrite !bind_Ok.
    by rewrite (tensor_run f' g' fg') by (done || lia).
  - rewrite !bind_Ok. simpl. destruct (run f' a); simpl; done.
Qed.

Lemma Function_interchange_witness :
  ∃ fg fg' l ff gg r,
    Function.tensor (Function.id 1) (Function.Fn (Function.id 1)) = Ok fg ∧
    Function.tensor (Function.id 1) (Function.Fn (Function.id 1)) = Ok fg' ∧
    Function.then_ fg (Function.Fn fg') = Ok l ∧
    Function.then_ (Function.id 1) (Function.Fn (Function.id 1)) = Ok ff ∧
    Function.then_ (Function.id 1) (Function.Fn (Function.id 1)) = Ok gg ∧
    Function.tensor ff (Function.Fn gg) = Ok r ∧
    (Function.call l [VInt 1; VInt 2] = Ok (VTuple [VInt 1; VInt 2]) ↔
     Function.call r [VInt 1; VInt 2] = Ok (VTuple [VInt 1; VInt 2])).
Proof.
  destruct (Function_interchange (Function.id 1) (Function.id 1)
              (Function.id 1) (Function.id 1))
    as (fg & fg' & l & ff & gg & r & Efg & Efg' & El & Eff & Egg & Er & H);
    try apply id_well_typed; try reflexivity.
  destruct H as (_ & _ & Hcall).
  exists fg, fg', l, ff, gg, r. repeat (split; [done|]).
  apply Hcall; [reflexivity|by repeat constructor].
Defined.

(** ** The generator [Swap] *)

Lemma zip_comprehension {A B : Type} (f : nat → nat → A) (g : nat → nat → B)
    (r : nat) (l : list nat) :
  zip (flat_map (λ a, map (f a) (seq 0 r)) l)
      (flat_map (λ a, map (g a) (seq 0 r)) l)
  = flat_map (λ a, map (λ b, (f a b, g a b)) (seq 0 r)) l.
Proof.
  induction l as [|a l IH]; [done|]. simpl.
  rewrite zip_with_app by by rewrite !length_map.
  rewrite IH. f_equal. clear. induction (seq 0 r) as [|b bs IH]; [done|].
  simpl. by rewrite IH.
Qed.

Lemma Swap_zip (left right : nat) :
  zip (Diagram.boxes (Swap left right)) (Diagram.offsets (Swap left right))
  = Swap_layers left right.
Proof. apply (zip_comprehension (λ _ _, SWAP)). Qed.

Lemma Swap_layers_bounds (left right : nat) :
  Forall (λ p, p.1 = SWAP ∧ (0 ≤ p.2 ≤ Z.of_nat (left + right) - 2)%Z)
    (Swap_layers left right).
Proof.
  apply Forall_forall. intros p Hp. apply list_elem_of_In in Hp.
  apply in_flat_map in Hp as (a & Ha & Hp).
  apply in_map_iff in Hp as (b & <- & Hb).
  apply in_seq in Ha, Hb. simpl. split; [done|lia].
Qed.

Lemma widths_SWAP (n : nat) (layers : list (Box.t * Z)) :
  Forall (λ p, p.1 = SWAP ∧ (0 ≤ p.2 ≤ Z.of_nat n - 2)%Z) layers →
  widths n layers = Some n.
Proof.
  induction 1 as [|[b off] layers [Hb Hoff] _ IH]; [done|].
  simpl in Hb, Hoff. subst b. cbn [widths].
  replace (0 <=? off)%Z with true by lia.
  replace (Z.to_nat off + Box.dom SWAP <=? n) with true
    by (symmetry; apply Nat.leb_le; simpl; lia).
  cbn [andb].
  replace (Z.to_nat off + Box.cod SWAP + (n - Z.to_nat off - Box.dom SWAP))
    with n by (simpl; lia).
  done.
Qed.

Lemma Swap_well_formed (left right : nat) : well_formed (Swap left right).
Proof.
  split.
  - simpl. by rewrite !comprehension_length.
  - rewrite Swap_zip.
    replace (Diagram.cod (Swap left right)) with (left + right)
      by (simpl; lia).
    apply widths_SWAP, Swap_layers_bounds.
Qed.

Lemma Swap_boxes_valid (left right : nat) :
  Forall (valid_at call_functor) (Diagram.boxes (Swap left right)).
Proof. apply comprehension_Forall. intros _ _. apply SWAP_valid. Qed.

(** X9: [Swap(left, right)] is a well formed diagram: it has as many offsets
    as boxes, every offset lies between [0] and [left + right - 2], so that
    every box sits on two wires of the diagram, whose width stays
    [left + right]; with no wire on one side it is the identity diagram. *)
Theorem Swap_fits (left right : nat) :
  well_formed (Swap left right) ∧
  Forall (λ off, (0 ≤ off ≤ Z.of_nat (left + right) - 2)%Z)
    (Diagram.offsets (Swap left right)) ∧
  Swap 0 right = Diagram.id right ∧
  Swap left 0 = Diagram.id left.
Proof.
  split; [apply Swap_well_formed|]. split; [|split].
  - apply Forall_forall. intros off Hoff. apply list_elem_of_In in Hoff.
    apply in_flat_map in Hoff as (a & Ha & Hoff).
    apply in_map_iff in Hoff as (b & <- & Hb).
    apply in_seq in Ha, Hb. lia.
  - unfold Swap, Diagram.id. by rewrite Nat.add_0_r.
  - unfold Swap, Diagram.id. rewrite Nat.add_0_r. simpl. f_equal.
    + by induction (seq 0 left).
    + by induction (seq 0 left).
Qed.

(** *** What [Swap] computes *)

Lemma den_SWAP (pre : list value) (x y : value) (rest : list value)
    (ls : list (Box.t * Z)) :
  den call_functor ((SWAP, Z.of_nat (length pre)) :: ls)
    (pre ++ x :: y :: rest)
  = den call_functor ls (pre ++ y :: x :: rest).
Proof.
  cbn [den]. rewrite Nat2Z.id.
  change (ar call_functor SWAP) with (Ok (Function.mk 2 2
    (λ vals, match vals with
             | [x; y] => Ok (VTuple [y; x])
             | _ => Raise TypeError
             end))).
  rewrite bind_Ok.
  change (ob call_functor (length pre)) with (length pre).
  change (ob call_functor (Box.dom SWAP)) with 2.
  rewrite <- drop_drop, take_app_length, drop_app_length.
  cbn [take drop]. by rewrite run_unfold, call_eq by done.
Qed.

Lemma slide_S (p k : nat) :
  slide p (S k) = (SWAP, Z.of_nat p) :: slide (S p) k.
Proof.
  unfold slide. cbn [seq map]. rewrite Nat.add_0_r. f_equal.
  rewrite <- fmap_S_seq, <- list_fmap_compose. apply map_ext. intros b. simpl.
  do 2 f_equal. lia.
Qed.

Lemma den_slide (ys : list value) :
  ∀ pre x post,
    den call_functor (slide (length pre) (length ys)) (pre ++ x :: ys ++ post)
    = Ok (pre ++ ys ++ x :: post).
Proof.
  induction ys as [|y ys IH]; intros pre x post; [done|].
  cbn [length]. rewrite slide_S. cbn [app]. rewrite den_SWAP.
  replace (S (length pre)) with (length (pre ++ [y]))
    by (rewrite length_app; simpl; lia).
  replace (pre ++ y :: x :: ys ++ post) with ((pre ++ [y]) ++ x :: ys ++ post)
    by by rewrite <- app_assoc.
  rewrite IH. by rewrite <- app_assoc.
Qed.

Lemma Swap_row (left right a : nat) :
  a < left →
  map (λ b, (SWAP, (Z.of_nat left + Z.of_nat b - 1 - Z.of_nat a)%Z))
    (seq 0 right)
  = slide (left - 1 - a) right.
Proof.
  intros Ha. apply map_ext. intros b. f_equal. lia.
Qed.

Lemma den_Swap_rows (xs ys : list value) (k : nat) :
  k ≤ length xs →
  den call_functor
    (flat_map (λ a, map (λ b, (SWAP, (Z.of_nat (length xs) + Z.of_nat b - 1
                                      - Z.of_nat a)%Z))
                        (seq 0 (length ys))) (seq 0 k))
    (xs ++ ys)
  = Ok (take (length xs - k) xs ++ ys ++ drop (length xs - k) xs).
Proof.
  induction k as [|k IH]; intros Hk.
  - simpl. by rewrite Nat.sub_0_r, firstn_all, drop_all, app_nil_r.
  - rewrite seq_S, flat_map_app, den_app, IH by lia. rewrite bind_Ok.
    cbn [flat_map plus]. rewrite app_nil_r, Swap_row by lia.
    destruct (lookup_lt_is_Some_2 xs (length xs - 1 - k)) as [x Hx]; [lia|].
    replace (length xs - k) with (S (length xs - 1 - k)) by lia.
    rewrite (take_S_r _ _ _ Hx), <- app_assoc. cbn [app].
    replace (length xs - 1 - k) with (length (take (length xs - 1 - k) xs))
      at 1 by (rewrite length_take; lia).
    rewrite den_slide.
    replace (length xs - S k) with (length xs - 1 - k) by lia.
    by rewrite (drop_S _ _ _ Hx).
Qed.

Lemma den_Swap (xs ys : list value) :
  den call_functor (Swap_layers (length xs) (length ys)) (xs ++ ys)
  = Ok (ys ++ xs).
Proof.
  unfold Swap_layers. rewrite den_Swap_rows by done.
  by rewrite Nat.sub_diag, take_0, drop_0.
Qed.

(** Calling a composite diagram: the layers of the left operand run first,
    then those of the right operand. *)
Lemma Diagram_call_then (d1 d2 d : Diagram.t) (xs : list value) :
  well_formed d1 → well_formed d2 →
  Forall (valid_at call_functor) (Diagram.boxes d1) →
  Forall (valid_at call_functor) (Diagram.boxes d2) →
  Diagram.then_ d1 d2 = Ok d →
  length xs = Diagram.dom d1 → scalars xs →
  Diagram_call d xs
  = (ys ← den call_functor (zip (Diagram.boxes d1) (Diagram.offsets d1)) xs;
     zs ← den call_functor (zip (Diagram.boxes d2) (Diagram.offsets d2)) ys;
     Ok (untuplify zs)).
Proof.
  intros W1 W2 V1 V2 Hd Hlen Sx.
  destruct (then_well_formed d1 d2 d W1 W2 Hd) as (W & Dd & _ & Bd & Zd).
  rewrite Diagram_call_den; [|done| |lia|done].
  - by rewrite Zd, den_app, bind_assoc.
  - rewrite Bd. by apply Forall_app.
Qed.

Lemma Diagram_call_arity (d : Diagram.t) (xs : list value) :
  well_formed d → Forall (valid_at call_functor) (Diagram.boxes d) →
  length xs ≠ Diagram.dom d → Diagram_call d xs = Raise AxiomError.
Proof.
  intros W V Hlen.
  destruct (apply_den call_functor call_functor_monoidal d W V)
    as (h & Hh & Dh & _).
  rewrite Diagram_call_unfold, Hh, bind_Ok.
  apply call_arity_error. by rewrite Dh.
Qed.

(** X10: called on [left] scalars followed by [right] scalars,
    [Swap(left, right)] returns the [right] ones followed by the [left] ones
    (a single value bare); on any other number of arguments it raises the
    arity error. *)
Theorem Swap_call (xs ys : list value) :
  scalars xs → scalars ys →
  Diagram_call (Swap (length xs) (length ys)) (xs ++ ys)
  = Ok (untuplify (ys ++ xs)) ∧
  ∀ zs, length zs ≠ length xs + length ys →
    Diagram_call (Swap (length xs) (length ys)) zs = Raise AxiomError.
Proof.
  intros Sx Sy. split.
  - rewrite Diagram_call_den.
    + by rewrite Swap_zip, den_Swap.
    + apply Swap_well_formed.
    + apply Swap_boxes_valid.
    + by rewrite length_app.
    + by apply scalars_app.
  - intros zs Hzs. apply Diagram_call_arity; [apply Swap_well_formed| |done].
    apply Swap_boxes_valid.
Qed.

Lemma Swap_call_witness :
  Diagram_call (Swap 1 2) [VInt 0; VInt 1; VInt 2]
  = Ok (VTuple [VInt 1; VInt 2; VInt 0]).
Proof.
  apply (Swap_call [VInt 0] [VInt 1; VInt 2]); by repeat constructor.
Defined.

(** X11: [Swap(left, right) >> Swap(right, left)] is built and gives back
    its arguments: the two swaps undo each other. *)
Theorem Swap_involution (xs ys : list value) :
  scalars xs → scalars ys →
  ∃ d, Diagram.then_ (Swap (length xs) (length ys))
         (Swap (length ys) (length xs)) = Ok d ∧
       Diagram_call d (xs ++ ys) = Ok (untuplify (xs ++ ys)).
Proof.
  intros Sx Sy.
  destruct (Diagram.then_ (Swap (length xs) (length ys))
              (Swap (length ys) (length xs))) as [d|e] eqn:Hd.
  - exists d. split; [done|].
    rewrite (Diagram_call_then _ _ d _ (Swap_well_formed _ _)
               (Swap_well_formed _ _) (Swap_boxes_valid _ _)
               (Swap_boxes_valid _ _) Hd).
    + by rewrite !Swap_zip, den_Swap, bind_Ok, den_Swap.
    + by rewrite length_app.
    + by apply scalars_app.
  - rewrite then_ok in Hd; [done|]. simpl. lia.
Qed.

Lemma Swap_involution_witness :
  ∃ d, Diagram.then_ (Swap 1 2) (Swap 2 1) = Ok d ∧
       Diagram_call d [VInt 0; VInt 1; VInt 2]
       = Ok (VTuple [VInt 0; VInt 1; VInt 2]).
Proof.
  apply (Swap_involution [VInt 0] [VInt 1; VInt 2]); by repeat constructor.
Defined.

(** X12: copying is commutative: [Copy(n) >> Swap(n, n)] is built and, called
    on [n] scalars, returns what [Copy(n)] returns, the arguments twice. *)
Theorem Copy_then_Swap (xs : list value) :
  scalars xs →
  ∃ c d, Copy (length xs) = Ok c ∧
         Diagram.then_ c (Swap (length xs) (length xs)) = Ok d ∧
         Diagram_call d xs = Diagram_call c xs ∧
         Diagram_call d xs = Ok (untuplify (xs ++ xs)).
Proof.
  intros Sx.
  destruct (Copy_closed_form (length xs)) as (c & Hc & Dc & Cc & Lc & Zc).
  assert (well_formed c) as Wc.
  { split; [done|]. rewrite Zc, Dc, Cc. apply widths_Copy_layers. }
  assert (Forall (valid_at call_functor) (Diagram.boxes c)) as Vc.
  { rewrite <- (layers_boxes c Wc), Zc. apply Copy_layers_valid. }
  destruct (Diagram.then_ c (Swap (length xs) (length xs))) as [d|e] eqn:Hd.
  - exists c, d. split; [done|]. split; [done|].
    assert (Diagram_call d xs = Ok (untuplify (xs ++ xs))) as Hcall.
    { rewrite (Diagram_call_then _ _ d _ Wc (Swap_well_formed _ _) Vc
                 (Swap_boxes_valid _ _) Hd) by done.
      by rewrite Zc, den_Copy_layers, bind_Ok, Swap_zip, den_Swap. }
    split; [|done]. rewrite Hcall, Diagram_call_den by done.
    by rewrite Zc, den_Copy_layers.
  - rewrite then_ok in Hd; [done|]. simpl. lia.
Qed.

Lemma Copy_then_Swap_witness :
  ∃ c d, Copy 2 = Ok c ∧ Diagram.then_ c (Swap 2 2) = Ok d ∧
         Diagram_call d [VInt 5; VInt 6]
         = Ok (VTuple [VInt 5; VInt 6; VInt 5; VInt 6]).
Proof.
  destruct (Copy_then_Swap [VInt 5; VInt 6]) as (c & d & Hc & Hd & _ & H);
    [by repeat constructor|].
  by exists c, d.
Defined.

(** X13: the Yang-Baxter equation holds on every triple of scalars: both
    [SWAP @ Id(1) >> Id(1) @ SWAP >> SWAP @ Id(1)] and
    [Id(1) @ SWAP >> SWAP @ Id(1) >> Id(1) @ SWAP] are built and return the
    triple reversed. *)
Theorem Yang_Baxter (a b c : value) :
  scalars [a; b; c] →
  let s1 := Diagram.tensor (Diagram.of_box SWAP) (Diagram.id 1) in
  let s2 := Diagram.tensor (Diagram.id 1) (Diagram.of_box SWAP) in
  ∃ l r,
    (d ← Diagram.then_ s1 s2; Diagram.then_ d s1) = Ok l ∧
    (d ← Diagram.then_ s2 s1; Diagram.then_ d s2) = Ok r ∧
    Diagram_call l [a; b; c] = Ok (VTuple [c; b; a]) ∧
    Diagram_call r [a; b; c] = Ok (VTuple [c; b; a]).
Proof.
  intros Habc s1 s2. eexists _, _. split; [reflexivity|].
  split; [reflexivity|].
  apply Forall_cons in Habc as [Ha Habc].
  apply Forall_cons in Habc as [Hb Habc].
  apply Forall_cons in Habc as [Hc _].
  destruct a as [a|]; [|done]. destruct b as [b|]; [|done].
  destruct c as [c|]; [|done]. split; reflexivity.
Qed.

Lemma Yang_Baxter_witness :
  ∃ l r,
    (d ← Diagram.then_ (Diagram.tensor (Diagram.of_box SWAP) (Diagram.id 1))
           (Diagram.tensor (Diagram.id 1) (Diagram.of_box SWAP));
     Diagram.then_ d (Diagram.tensor (Diagram.of_box SWAP) (Diagram.id 1)))
    = Ok l ∧
    (d ← Diagram.then_ (Diagram.tensor (Diagram.id 1) (Diagram.of_box SWAP))
           (Diagram.tensor (Diagram.of_box SWAP) (Diagram.id 1));
     Diagram.then_ d (Diagram.tensor (Diagram.id 1) (Diagram.of_box SWAP)))
    = Ok r ∧
    Diagram_call l [VInt 41; VInt 42; VInt 43]
    = Ok (VTuple [VInt 43; VInt 42; VInt 41]) ∧
    Diagram_call r [VInt 41; VInt 42; VInt 43]
    = Ok (VTuple [VInt 43; VInt 42; VInt 41]).
Proof.
  apply (Yang_Baxter (VInt 41) (VInt 42) (VInt 43)). by repeat constructor.
Defined.

(** ** Diagrams side by side *)

Lemma den_layers_valid (d : Diagram.t) (xs ys : list value) :
  well_formed d → Forall (valid_at call_functor) (Diagram.boxes d) →
  length xs = Diagram.dom d → scalars xs →
  den call_functor (zip (Diagram.boxes d) (Diagram.offsets d)) xs = Ok ys →
  length ys = Diagram.cod d ∧ scalars ys.
Proof.
  intros W V Hlen Sx Hys.
  apply (den_valid call_functor call_functor_monoidal
           (zip (Diagram.boxes d) (Diagram.offsets d)) (Diagram.dom d)
           (Diagram.cod d) xs ys); try done; [apply W|].
  by rewrite layers_boxes.
Qed.

(** The layers of a tensor run the left operand on the first values and the
    right operand on the others. *)
Lemma den_tensor (d1 d2 : Diagram.t) (xs ys : list value) :
  well_formed d1 → well_formed d2 →
  Forall (valid_at call_functor) (Diagram.boxes d1) →
  Forall (valid_at call_functor) (Diagram.boxes d2) →
  length xs = Diagram.dom d1 → length ys = Diagram.dom d2 →
  scalars xs → scalars ys →
  den call_functor
    (zip (Diagram.boxes (Diagram.tensor d1 d2))
         (Diagram.offsets (Diagram.tensor d1 d2))) (xs ++ ys)
  = (a ← den call_functor (zip (Diagram.boxes d1) (Diagram.offsets d1)) xs;
     b ← den call_functor (zip (Diagram.boxes d2) (Diagram.offsets d2)) ys;
     Ok (a ++ b)).
Proof.
  intros W1 W2 V1 V2 L1 L2 S1 S2.
  destruct (tensor_well_formed d1 d2 W1 W2) as [_ ->].
  rewrite den_app.
  rewrite (den_frame call_functor call_functor_monoidal _ (Diagram.dom d1)
             (Diagram.cod d1)); try done; [|apply W1|by rewrite layers_boxes].
  rewrite bind_assoc. apply bind_ext. intros a Ha. rewrite bind_Ok.
  apply den_layers_valid in Ha as [La Sa]; try done.
  apply (den_shift call_functor call_functor_monoidal _ (Diagram.cod d1)
           (Diagram.dom d2) (Diagram.cod d2)); try done; [apply W2|].
  by rewrite layers_boxes.
Qed.

Lemma tensor_boxes_valid (d1 d2 : Diagram.t) :
  Forall (valid_at call_functor) (Diagram.boxes d1) →
  Forall (valid_at call_functor) (Diagram.boxes d2) →
  Forall (valid_at call_functor) (Diagram.boxes (Diagram.tensor d1 d2)).
Proof. intros V1 V2. by apply Forall_app. Qed.

(** X14: the swap is natural.  For well formed diagrams [f] and [g] of
    boxes that respect their codomains, [f @ g >> Swap(len(f.cod),
    len(g.cod))] and [Swap(len(f.dom), len(g.dom)) >> g @ f] are built and,
    called on scalars, one returns a value exactly when the other returns
    it.  (When both [f] and [g] raise, the first raises the exception of [f]
    and the second that of [g].) *)
Theorem Swap_natural (f g : Diagram.t) (xs ys : list value) :
  well_formed f → well_formed g →
  Forall (valid_at call_functor) (Diagram.boxes f) →
  Forall (valid_at call_functor) (Diagram.boxes g) →
  length xs = Diagram.dom f → length ys = Diagram.dom g →
  scalars xs → scalars ys →
  ∃ l r,
    Diagram.then_ (Diagram.tensor f g)
      (Swap (Diagram.cod f) (Diagram.cod g)) = Ok l ∧
    Diagram.then_ (Swap (Diagram.dom f) (Diagram.dom g))
      (Diagram.tensor g f) = Ok r ∧
    ∀ v, Diagram_call l (xs ++ ys) = Ok v ↔ Diagram_call r (xs ++ ys) = Ok v.
Proof.
  intros Wf Wg Vf Vg Lx Ly Sx Sy.
  destruct (tensor_well_formed f g Wf Wg) as [Wfg _].
  destruct (tensor_well_formed g f Wg Wf) as [Wgf _].
  pose proof (tensor_boxes_valid f g Vf Vg) as Vfg.
  pose proof (tensor_boxes_valid g f Vg Vf) as Vgf.
  destruct (Diagram.then_ (Diagram.tensor f g)
              (Swap (Diagram.cod f) (Diagram.cod g))) as [l|e] eqn:Hl;
    [|by rewrite then_ok in Hl].
  destruct (Diagram.then_ (Swap (Diagram.dom f) (Diagram.dom g))
              (Diagram.tensor g f)) as [r|e] eqn:Hr;
    [|rewrite then_ok in Hr; [done|simpl; lia]].
  exists l, r. split; [done|]. split; [done|]. intros v.
  rewrite (Diagram_call_then _ _ l _ Wfg (Swap_well_formed _ _) Vfg
             (Swap_boxes_valid _ _) Hl);
    [|simpl; rewrite length_app; lia|by apply scalars_app].
  rewrite (Diagram_call_then _ _ r _ (Swap_well_formed _ _) Wgf
             (Swap_boxes_valid _ _) Vgf Hr);
    [|simpl; rewrite length_app; lia|by apply scalars_app].
  rewrite den_tensor, !Swap_zip by done.
  rewrite <- Lx, <- Ly, den_Swap, bind_Ok, den_tensor by done.
  destruct (den call_functor (zip (Diagram.boxes f) (Diagram.offsets f)) xs)
    as [a|e] eqn:Ea;
    destruct (den call_functor (zip (Diagram.boxes g) (Diagram.offsets g)) ys)
    as [b|e'] eqn:Eb; rewrite ?bind_Ok; try done.
  apply den_layers_valid in Ea as [La Sa]; try done.
  apply den_layers_valid in Eb as [Lb Sb]; try done.
  by rewrite <- La, <- Lb, den_Swap.
Qed.

Lemma Swap_natural_witness :
  ∃ l r,
    Diagram.then_ (Diagram.tensor (Diagram.of_box COPY) (Diagram.of_box SWAP))
      (Swap 2 2) = Ok l ∧
    Diagram.then_ (Swap 1 2)
      (Diagram.tensor (Diagram.of_box SWAP) (Diagram.of_box COPY)) = Ok r ∧
    (Diagram_call l [VInt 1; VInt 2; VInt 3]
     = Ok (VTuple [VInt 3; VInt 2; VInt 1; VInt 1]) ↔
     Diagram_call r [VInt 1; VInt 2; VInt 3]
     = Ok (VTuple [VInt 3; VInt 2; VInt 1; VInt 1])).
Proof.
  destruct (Swap_natural (Diagram.of_box COPY) (Diagram.of_box SWAP)
              [VInt 1] [VInt 2; VInt 3]) as (l & r & Hl & Hr & H);
    try done; try (by repeat constructor).
  - repeat constructor. apply COPY_valid.
  - repeat constructor. apply SWAP_valid.
  - exists l, r. split; [exact Hl|]. split; [exact Hr|]. apply H.
Defined.

Lemma Copy_well_formed (n : nat) :
  ∃ c, Copy n = Ok c ∧ Diagram.dom c = n ∧ Diagram.cod c = 2 * n ∧
       well_formed c ∧ Forall (valid_at call_functor) (Diagram.boxes c) ∧
       zip (Diagram.boxes c) (Diagram.offsets c) = Copy_layers n.
Proof.
  destruct (Copy_closed_form n) as (c & Hc & Dc & Cc & Lc & Zc).
  assert (well_formed c) as Wc.
  { split; [done|]. rewrite Zc, Dc, Cc. apply widths_Copy_layers. }
  exists c. repeat (split; [done|]). split; [|done].
  rewrite <- (layers_boxes c Wc), Zc. apply Copy_layers_valid.
Qed.

(** X15: copying is natural.  For a well formed diagram [f] of boxes that
    respect their codomains, [f >> Copy(len(f.cod))] and
    [Copy(len(f.dom)) >> f @ f] are built and, called on scalars, return the
    same result or raise the same exception. *)
Theorem Copy_natural (f : Diagram.t) (xs : list value) :
  well_formed f → Forall (valid_at call_functor) (Diagram.boxes f) →
  length xs = Diagram.dom f → scalars xs →
  ∃ c c' l r,
    Copy (Diagram.cod f) = Ok c ∧ Diagram.then_ f c = Ok l ∧
    Copy (Diagram.dom f) = Ok c' ∧
    Diagram.then_ c' (Diagram.tensor f f) = Ok r ∧
    Diagram_call l xs = Diagram_call r xs.
Proof.
  intros Wf Vf Lx Sx.
  destruct (Copy_well_formed (Diagram.cod f))
    as (c & Hc & Dc & Cc & Wc & Vc & Zc).
  destruct (Copy_well_formed (Diagram.dom f))
    as (c' & Hc' & Dc' & Cc' & Wc' & Vc' & Zc').
  destruct (tensor_well_formed f f Wf Wf) as [Wff _].
  pose proof (tensor_boxes_valid f f Vf Vf) as Vff.
  destruct (Diagram.then_ f c) as [l|e] eqn:Hl;
    [|by rewrite then_ok in Hl].
  destruct (Diagram.then_ c' (Diagram.tensor f f)) as [r|e] eqn:Hr;
    [|rewrite then_ok in Hr; [done|simpl; lia]].
  exists c, c', l, r. repeat (split; [done|]).
  rewrite (Diagram_call_then _ _ l _ Wf Wc Vf Vc Hl) by done.
  rewrite (Diagram_call_then _ _ r _ Wc' Wff Vc' Vff Hr) by (done || lia).
  rewrite Zc, Zc', <- Lx, den_Copy_layers, bind_Ok, den_tensor by done.
  destruct (den call_functor (zip (Diagram.boxes f) (Diagram.offsets f)) xs)
    as [a|e] eqn:Ea; [|done].
  apply den_layers_valid in Ea as [La Sa]; try done.
  by rewrite !bind_Ok, <- La, den_Copy_layers.
Qed.

Lemma Copy_natural_witness :
  ∃ c c' l r,
    Copy 2 = Ok c ∧ Diagram.then_ (Diagram.of_box SWAP) c = Ok l ∧
    Copy 2 = Ok c' ∧
    Diagram.then_ c'
      (Diagram.tensor (Diagram.of_box SWAP) (Diagram.of_box SWAP)) = Ok r ∧
    Diagram_call l [VInt 1; VInt 2] = Diagram_call r [VInt 1; VInt 2].
Proof.
  apply (Copy_natural (Diagram.of_box SWAP) [VInt 1; VInt 2]);
    try done; try (by repeat constructor).
  repeat constructor. apply SWAP_valid.
Defined.

(** ** Calling a box *)

(** X16: a box called as a diagram.  Without a function, every call raises
    [AttributeError].  With a function [fn], a call on another number of
    arguments than the domain raises the arity error; a call on the right
    number of arguments hands them to [fn] and returns its result as a tuple,
    a single value bare, without any check against the codomain; a single
    argument that is a tuple is first replaced by its components. *)
Theorem Box_call (b : Box.t) :
  (Box.function b = None →
     ∀ xs, Diagram_call (Diagram.of_box b) xs = Raise AttributeError) ∧
  (∀ fn, Box.function b = Some fn →
     (∀ xs, length xs ≠ Box.dom b →
        Diagram_call (Diagram.of_box b) xs = Raise AxiomError) ∧
     (∀ xs, length xs = Box.dom b → (∀ l, xs ≠ [VTuple l]) →
        Diagram_call (Diagram.of_box b) xs
        = (v ← fn xs; Ok (untuplify (tuplify (untuplify (tuplify v)))))) ∧
     (∀ l, Box.dom b = 1 →
        Diagram_call (Diagram.of_box b) [VTuple l]
        = if length l =? 1
          then v ← fn l; Ok (untuplify (tuplify (untuplify (tuplify v))))
          else Raise AxiomError)).
Proof.
  split.
  - intros Hfn xs. unfold Diagram_call, apply. simpl. by rewrite Hfn.
  - intros fn Hfn.
    assert (∀ xs, Diagram_call (Diagram.of_box b) xs
      = (r ← Function.call (Function.id (Box.dom b)) xs;
         if length (tuplify r) =? Box.dom b
         then v ← fn (tuplify r);
              Ok (untuplify (tuplify (untuplify (tuplify v))))
         else Raise AxiomError)) as Hcall.
    { intros xs. unfold Diagram_call, apply. simpl. rewrite Hfn. simpl.
      replace (Box.dom b - Z.to_nat 0 - Box.dom b) with 0 by (simpl; lia).
      rewrite !Nat.add_0_r. unfold Function.then_. simpl.
      rewrite Nat.eqb_refl. simpl.
      destruct (decide (length xs = Box.dom b)) as [Hlen|Hlen];
        [|by rewrite !call_arity_error].
      rewrite call_eq by done. cbn [Function.function].
      rewrite id_call by done. simpl.
      set (ys := tuplify (untuplify xs)).
      unfold Function.call at 1. cbn [Function.dom Function.function].
      destruct (length ys =? Box.dom b) eqn:E; [|done]. simpl.
      apply Nat.eqb_eq in E. unfold Function.product at 1.
      cbn [Function.dom].
      rewrite firstn_all2, drop_ge by lia.
      rewrite (call_eq _ ys) by done. cbn [Function.function].
      unfold Function.product. cbn [Function.dom Function.id].
      change (Z.to_nat 0) with 0. rewrite take_0, drop_0.
      rewrite !(call_eq _ []) by done.
      change (Function.function (Function.id 0) [])
        with (Ok (VTuple []) : outcome value).
      rewrite bind_Ok. cbn [tuplify untuplify app].
      rewrite (call_eq _ ys) by done. cbn [Function.function].
      rewrite bind_assoc. apply bind_ext. intros v _.
      by rewrite !bind_Ok, app_nil_r. }
    split; [|split].
    + intros xs Hlen. rewrite Hcall, call_arity_error; done.
    + intros xs Hlen Hxs. rewrite Hcall, id_call by done. simpl.
      rewrite tuplify_untuplify_args by done.
      by rewrite Hlen, Nat.eqb_refl.
    + intros l Hdom. rewrite Hcall, id_call by done. simpl.
      by rewrite Hdom.
Qed.

Lemma Box_call_witness :
  Diagram_call
    (Diagram.of_box (Box.mk "pair" 1 5 (Some (λ x, Ok (VTuple (x ++ x)))) None))
    [VInt 7] = Ok (VTuple [VInt 7; VInt 7]) ∧
  Diagram_call (Diagram.of_box (Box.mk "f" 1 1 None None)) [VInt 7]
  = Raise AttributeError.
Proof.
  split.
  - destruct (Box_call (Box.mk "pair" 1 5 (Some (λ x, Ok (VTuple (x ++ x))))
                          None)) as [_ H].
    destruct (H _ eq_refl) as (_ & Hcall & _).
    rewrite Hcall; [reflexivity|reflexivity|]. intros l [=].
  - by apply (Box_call (Box.mk "f" 1 1 None None)).
Defined.

Lemma apply_layers_no_function (layers : list (Box.t * Z)) :
  ∀ scan w acc,
    widths scan layers = Some w → Function.cod acc = scan →
    Exists (λ p, Box.function p.1 = None) layers →
    apply_layers call_functor scan acc layers = Raise AttributeError.
Proof.
  induction layers as [|[box off] layers IH]; intros scan w acc Hw Hacc Hex.
  - by apply Exists_nil in Hex.
  - rewrite apply_layers_Function_cons.
    change (ar call_functor box) with
      (match Box.function box with
       | Some function => Ok (Function.mk (Box.dom box) (Box.cod box) function)
       | None => Raise AttributeError
       end).
    destruct (Box.function box) as [fn|] eqn:Hfn; [|done].
    apply Exists_cons in Hex as [Hex|Hex]; [simpl in Hex; congruence|].
    apply widths_cons in Hw as (Hoff & Hfit & Hw).
    rewrite bind_Ok. cbn [Function.tensor]. rewrite !bind_Ok.
    rewrite then_Fn_ok by (simpl; unfold call_functor; simpl; lia).
    rewrite bind_Ok. apply (IH _ w); [done| |done].
    simpl. unfold call_functor. simpl. lia.
Qed.

(** X17: a well formed diagram with a box that has no function cannot be
    called: every call, on any arguments, raises [AttributeError]. *)
Theorem call_without_function (d : Diagram.t) (xs : list value) :
  well_formed d →
  Exists (λ b, Box.function b = None) (Diagram.boxes d) →
  Diagram_call d xs = Raise AttributeError.
Proof.
  intros [Hlen Hw] Hex. rewrite Diagram_call_unfold. unfold apply.
  rewrite (apply_layers_no_function _ _ (Diagram.cod d)); [done|done|done|].
  apply Exists_exists in Hex as (b & Hb & Hfn).
  apply list_elem_of_lookup in Hb as [i Hi].
  destruct (lookup_lt_is_Some_2 (Diagram.offsets d) i) as [off Hoff].
  { rewrite <- Hlen. by apply lookup_lt_is_Some_1. }
  apply Exists_exists. exists (b, off). split; [|done].
  apply list_elem_of_lookup. exists i.
  by rewrite lookup_zip_with, Hi; simpl; rewrite Hoff.
Qed.

Lemma call_without_function_witness :
  Diagram_call
    (Diagram.tensor (Diagram.of_box SWAP)
       (Diagram.of_box (Box.mk "f" 1 1 None None)))
    [VInt 1; VInt 2; VInt 3] = Raise AttributeError.
Proof.
  apply call_without_function.
  - by split.
  - right. left. done.
Defined.

(** ** The loop of [Discard] and the counit law *)

Lemma DISCARD_valid : valid_at call_functor DISCARD.
Proof.
  eexists. split; [reflexivity|]. split; [done|]. split; [done|].
  intros xs Hlen Hxs. rewrite call_eq by done. simpl. split; [done|].
  constructor.
Qed.

Lemma Discard_loop_layers (n : nat) :
  zip (Diagram.boxes (Discard_loop n)) (Diagram.offsets (Discard_loop n))
  = replicate n (DISCARD, 0%Z).
Proof.
  destruct (Discard_loop_shape n) as (_ & _ & -> & ->).
  induction n as [|n IH]; [done|]. simpl. by rewrite IH.
Qed.

Lemma Discard_loop_well_formed (n : nat) : well_formed (Discard_loop n).
Proof.
  split.
  - destruct (Discard_loop_shape n) as (_ & _ & -> & ->).
    by rewrite !length_replicate.
  - rewrite Discard_loop_layers.
    destruct (Discard_loop_shape n) as (-> & -> & _).
    induction n as [|n IH]; [done|]. cbn [replicate widths].
    replace (n - 0) with n in IH by lia. simpl. by rewrite Nat.sub_0_r.
Qed.

Lemma Discard_loop_valid (n : nat) :
  Forall (valid_at call_functor) (Diagram.boxes (Discard_loop n)).
Proof.
  destruct (Discard_loop_shape n) as (_ & _ & -> & _).
  apply Forall_replicate, DISCARD_valid.
Qed.

Lemma den_Discard_loop (xs rest : list value) :
  den call_functor (replicate (length xs) (DISCARD, 0%Z)) (xs ++ rest)
  = Ok rest.
Proof.
  induction xs as [|x xs IH]; [done|]. cbn [length replicate].
  change ((x :: xs) ++ rest) with ([x] ++ xs ++ rest).
  rewrite (den_cons_0 DISCARD _ _ [x] _ eq_refl eq_refl).
  change (run _ [x]) with (Ok [] : outcome (list value)).
  by rewrite bind_Ok.
Qed.

Lemma id_well_formed (n : nat) : well_formed (Diagram.id n).
Proof. by split. Qed.

(** X18: the diagram that the loop of [Discard.__init__] builds for [n]
    (the tensor of [n] boxes [DISCARD], which [Discard(n)] never hands
    out) is well formed and discards: called on [n] scalars it returns the
    empty tuple, and on another number of arguments it raises the arity
    error. *)
Theorem Discard_loop_call (xs : list value) :
  scalars xs →
  well_formed (Discard_loop (length xs)) ∧
  Diagram_call (Discard_loop (length xs)) xs = Ok (VTuple []) ∧
  ∀ zs, length zs ≠ length xs →
    Diagram_call (Discard_loop (length xs)) zs = Raise AxiomError.
Proof.
  intros Sx. split; [apply Discard_loop_well_formed|].
  pose proof (Discard_loop_shape (length xs)) as (Hdom & _).
  split.
  - rewrite Diagram_call_den;
      [|apply Discard_loop_well_formed|apply Discard_loop_valid|done..].
    rewrite Discard_loop_layers.
    rewrite <- (app_nil_r xs) at 2. by rewrite den_Discard_loop.
  - intros zs Hzs. apply Diagram_call_arity;
      [apply Discard_loop_well_formed|apply Discard_loop_valid|].
    by rewrite Hdom.
Qed.

Lemma Discard_loop_call_witness :
  Diagram_call (Discard_loop 2) [VInt 43; VInt 44] = Ok (VTuple []).
Proof.
  apply (Discard_loop_call [VInt 43; VInt 44]). by repeat constructor.
Defined.

(** X19: the counit law of the comonoid.  Copying [n] scalars and then
    discarding either copy with the diagram of the loop of
    [Discard.__init__] gives the arguments back, as [Id(n)] does. *)
Theorem Copy_counit (xs : list value) :
  scalars xs →
  let n := length xs in
  ∃ c l r,
    Copy n = Ok c ∧
    Diagram.then_ c (Diagram.tensor (Diagram.id n) (Discard_loop n)) = Ok l ∧
    Diagram.then_ c (Diagram.tensor (Discard_loop n) (Diagram.id n)) = Ok r ∧
    Diagram_call l xs = Ok (untuplify xs) ∧
    Diagram_call r xs = Ok (untuplify xs) ∧
    Diagram_call (Diagram.id n) xs = Ok (untuplify xs).
Proof.
  intros Sx n. subst n.
  destruct (Copy_well_formed (length xs)) as (c & Hc & Dc & Cc & Wc & Vc & Zc).
  pose proof (Discard_loop_shape (length xs)) as (Ddom & Dcod & _).
  pose proof (Discard_loop_well_formed (length xs)) as Wd.
  pose proof (Discard_loop_valid (length xs)) as Vd.
  pose proof (id_well_formed (length xs)) as Wi.
  assert (Forall (valid_at call_functor) (Diagram.boxes (Diagram.id (length xs))))
    as Vi by constructor.
  destruct (tensor_well_formed (Diagram.id (length xs)) (Discard_loop (length xs)) Wi Wd)
    as [Wid _].
  destruct (tensor_well_formed (Discard_loop (length xs)) (Diagram.id (length xs)) Wd Wi)
    as [Wdi _].
  destruct (Diagram.then_ c (Diagram.tensor (Diagram.id (length xs)) (Discard_loop (length xs))))
    as [l|e] eqn:Hl; [|rewrite then_ok in Hl; [done|simpl; lia]].
  destruct (Diagram.then_ c (Diagram.tensor (Discard_loop (length xs)) (Diagram.id (length xs))))
    as [r|e] eqn:Hr; [|rewrite then_ok in Hr; [done|simpl; lia]].
  exists c, l, r. repeat (split; [done|]). split; [|split].
  - rewrite (Diagram_call_then _ _ l _ Wc Wid Vc
               (tensor_boxes_valid _ _ Vi Vd) Hl) by done.
    rewrite Zc, den_Copy_layers, bind_Ok by done.
    rewrite den_tensor by done. cbn [Diagram.id Diagram.boxes Diagram.offsets
      zip_with den]. rewrite bind_Ok, Discard_loop_layers.
    rewrite <- (app_nil_r xs) at 2.
    by rewrite den_Discard_loop, bind_Ok, app_nil_r.
  - rewrite (Diagram_call_then _ _ r _ Wc Wdi Vc
               (tensor_boxes_valid _ _ Vd Vi) Hr) by done.
    rewrite Zc, den_Copy_layers, bind_Ok by done.
    rewrite den_tensor by done. cbn [Diagram.id Diagram.boxes Diagram.offsets
      zip_with den]. rewrite Discard_loop_layers.
    rewrite <- (app_nil_r xs) at 2.
    by rewrite den_Discard_loop, !bind_Ok.
  - by apply Diagram_call_id.
Qed.

Lemma Copy_counit_witness :
  ∃ c l,
    Copy 2 = Ok c ∧
    Diagram.then_ c (Diagram.tensor (Diagram.id 2) (Discard_loop 2)) = Ok l ∧
    Diagram_call l [VInt 42; VInt 43] = Ok (VTuple [VInt 42; VInt 43]).
Proof.
  destruct (Copy_counit [VInt 42; VInt 43])
    as (c & l & r & Hc & Hl & _ & H & _); [by repeat constructor|].
  by exists c, l.
Defined.

(** ** [MappingOrCallable]: storing entries *)

Section MappingOrCallable_setitem.
Context {K U V : Type} `{Countable K}.
Import MappingOrCallable.

Implicit Types (self : MappingOrCallable.t K U V) (item : item K U).

(** X20: [__setitem__] under an unhashable key raises [TypeError].  Under a
    hashable key it succeeds, on a dict as on a function; afterwards the key
    resolves to the stored value, every other item resolves as before, a
    stored function is still the same function, and of two values stored
    under the same key the second one is kept. *)
Theorem setitem_frame self key (value : V) :
  (∀ u, key = Unhashable u → setitem self key value = Raise TypeError) ∧
  (∀ k, key = Hashable k →
     ∃ self', setitem self key value = Ok self' ∧
       getitem self' key = Ok value ∧
       (∀ item, item ≠ key → getitem self' item = getitem self item) ∧
       (∀ f, mapping self = Callable f → mapping self' = Callable f) ∧
       (∀ m, mapping self = Mapping m →
          mapping self' = Mapping (<[k := value]> m) ∧
          _inner_mapping self' = _inner_mapping self) ∧
       (∀ value', setitem self' key value' = setitem self key value')).
Proof.
  split; [by intros u ->|]. intros k ->. unfold setitem, getitem.
  destruct self as [[m|f] inner]; simpl; eexists; (split; [reflexivity|]);
    simpl; rewrite ?lookup_insert_eq.
  - split; [done|]. split; [|split; [done|split]].
    + intros [k'|u] Hne; [|done].
      by rewrite lookup_insert_ne by congruence.
    + by intros m' [= <-].
    + intros value'. by rewrite insert_insert_eq.
  - split; [done|]. split; [|split; [|split; [done|]]].
    + intros [k'|u] Hne; [|done].
      by rewrite lookup_insert_ne by congruence.
    + by intros f' [= <-].
    + intros value'. by rewrite insert_insert_eq.
Qed.

End MappingOrCallable_setitem.

Lemma setitem_frame_witness :
  ∃ s,
    MappingOrCallable.setitem (K := nat) (U := unit) (V := nat)
      (MappingOrCallable.init (MappingOrCallable.Callable (λ _, Ok 7)))
      (MappingOrCallable.Hashable 1) 5 = Ok s ∧
    MappingOrCallable.getitem s (MappingOrCallable.Hashable 1) = Ok 5 ∧
    MappingOrCallable.getitem s (MappingOrCallable.Hashable 2) = Ok 7.
Proof.
  destruct (setitem_frame (K := nat) (U := unit) (V := nat)
              (MappingOrCallable.init
                 (MappingOrCallable.Callable (λ _, Ok 7)))
              (MappingOrCallable.Hashable 1) 5) as [_ Hk].
  destruct (Hk 1 eq_refl) as (s & Hset & Hget & Hframe & _).
  exists s. split; [exact Hset|]. split; [exact Hget|].
  rewrite Hframe; [reflexivity|]. intros [=].
Defined.

(** ** [MappingOrCallable]: composition *)

Section MappingOrCallable_then.
Context {K U V W : Type} `{Countable K} `{Countable V}.
Import MappingOrCallable.

Lemma comprehension_inv (other : mapping_t V U W) (kvs : list (K * V)) :
  ∀ d0 d : gmap K W,
    for_each kvs
      (λ d kv, w ← access_other other kv.2; Ok (<[kv.1 := w]> d)) d0 = Ok d →
    (∀ k y, (k, y) ∈ kvs → ∃ w, access_other other y = Ok w) ∧
    (∀ k, k ∉ kvs.*1 → d !! k = d0 !! k) ∧
    (NoDup kvs.*1 →
     ∀ k y, (k, y) ∈ kvs → ∃ w, access_other other y = Ok w ∧ d !! k = Some w).
Proof.
  induction kvs as [|[k0 y0] kvs IH]; intros d0 d Hd.
  - injection Hd as <-. split; [|split; [done|]].
    + intros k y Hk. by apply not_elem_of_nil in Hk.
    + intros _ k y Hk. by apply not_elem_of_nil in Hk.
  - cbn [for_each] in Hd. simpl in Hd.
    destruct (access_other other y0) as [w0|e] eqn:E0; [|done].
    simpl in Hd. destruct (IH _ _ Hd) as (IH1 & IH2 & IH3).
    split; [|split].
    + intros k y Hk. apply elem_of_cons in Hk as [[= -> ->]|Hk]; eauto.
    + intros k Hk. simpl in Hk. apply not_elem_of_cons in Hk as [Hne Hk].
      by rewrite IH2, lookup_insert_ne.
    + intros Hnd k y Hk. simpl in Hnd. apply NoDup_cons in Hnd as [Hk0 Hnd].
      apply elem_of_cons in Hk as [[= -> ->]|Hk]; [|by apply IH3].
      exists w0. split; [done|]. by rewrite IH2, lookup_insert_eq.
Qed.

Lemma comprehension_raise (other : mapping_t V U W) (kvs : list (K * V)) :
  ∀ (d0 : gmap K W) e,
    for_each kvs
      (λ d kv, w ← access_other other kv.2; Ok (<[kv.1 := w]> d)) d0
    = Raise e →
    ∃ k y, (k, y) ∈ kvs ∧ access_other other y = Raise e.
Proof.
  induction kvs as [|[k0 y0] kvs IH]; intros d0 e He; [done|].
  cbn [for_each] in He. simpl in He.
  destruct (access_other other y0) as [w0|e0] eqn:E0.
  - simpl in He. destruct (IH _ _ He) as (k & y & Hk & Hy).
    exists k, y. split; [by right|done].
  - injection He as <-. exists k0, y0. split; [by left|done].
Qed.

Variable items : gmap K V → list (K * V).
Hypothesis items_order : ∀ m, items m ≡ₚ map_to_list m.

Lemma items_lookup (m : gmap K V) (k : K) (y : V) :
  (k, y) ∈ items m ↔ m !! k = Some y.
Proof. rewrite (items_order m). apply elem_of_map_to_list. Qed.

Lemma items_NoDup (m : gmap K V) : NoDup (items m).*1.
Proof. rewrite (items_order m). apply NoDup_fst_map_to_list. Qed.

Lemma comprehension_lookup_Some (other : mapping_t V U W) (m : gmap K V)
    (d : gmap K W) (k : K) (y : V) :
  comprehension other (items m) = Ok d → m !! k = Some y →
  ∃ w, access_other other y = Ok w ∧ d !! k = Some w.
Proof.
  intros Hd Hk. apply comprehension_inv in Hd as (_ & _ & Hd).
  apply (Hd (items_NoDup m)). by apply items_lookup.
Qed.

Lemma comprehension_lookup_None (other : mapping_t V U W) (m : gmap K V)
    (d : gmap K W) (k : K) :
  comprehension other (items m) = Ok d → m !! k = None → d !! k = None.
Proof.
  intros Hd Hk. apply comprehension_inv in Hd as (_ & Hd & _).
  rewrite Hd; [done|]. intros Hin.
  apply list_elem_of_fmap in Hin as ([k' y] & -> & Hin).
  apply items_lookup in Hin. simpl in Hk. congruence.
Qed.

(** X21: [self.then(other)].  When it returns, the result resolves every
    item to what [other] makes of the value that [self] resolves it to.  It
    raises exactly when [other] raises on a value stored in [self] (in the
    dict, or in the inner table), and then with an exception that [other]
    raised on such a value; nothing is looked up for the items that are
    not stored. *)
Theorem then_composes (self : MappingOrCallable.t K U V)
    (other : mapping_t V U W) :
  let stored k y :=
    _inner_mapping self !! k = Some y ∨
    ∃ m, mapping self = Mapping m ∧ m !! k = Some y in
  (∀ ret, then_ items self other = Ok ret →
     ∀ item, getitem ret item
             = (y ← getitem self item; access_other other y)) ∧
  (∀ e, then_ items self other = Raise e →
     ∃ k y, stored k y ∧ access_other other y = Raise e) ∧
  ((∃ ret, then_ items self other = Ok ret) ↔
   ∀ k y, stored k y → ∃ w, access_other other y = Ok w).
Proof.
  intros stored.
  assert (∀ e, then_ items self other = Raise e →
            ∃ k y, stored k y ∧ access_other other y = Raise e) as Hraise.
  { intros e. unfold then_, stored.
    destruct self as [[m|f] inner]; cbn [mapping _inner_mapping].
    - destruct (comprehension other (items m)) as [d|e'] eqn:Hd.
      + rewrite !bind_Ok.
        destruct (comprehension other (items inner)) as [d'|e''] eqn:Hd';
          [done|]. intros [= <-].
        apply comprehension_raise in Hd' as (k & y & Hk & Hy).
        exists k, y. split; [|done]. left. by apply items_lookup.
      + intros [= <-].
        apply comprehension_raise in Hd as (k & y & Hk & Hy).
        exists k, y. split; [|done]. right. exists m.
        split; [done|]. by apply items_lookup.
    - rewrite bind_Ok.
      destruct (comprehension other (items inner)) as [d'|e''] eqn:Hd';
        [done|]. intros [= <-].
      apply comprehension_raise in Hd' as (k & y & Hk & Hy).
      exists k, y. split; [|done]. left. by apply items_lookup. }
  split; [|split; [done|split]].
  - intros ret Hret item. unfold then_ in Hret.
    destruct self as [[m|f] inner]; cbn [mapping _inner_mapping] in Hret.
    + destruct (comprehension other (items m)) as [d|e] eqn:Hd; [|done].
      rewrite !bind_Ok in Hret.
      destruct (comprehension other (items inner)) as [d'|e] eqn:Hd';
        [|done]. injection Hret as <-. unfold getitem. simpl.
      destruct item as [k|u]; [|done].
      destruct (m !! k) as [y|] eqn:Hk.
      * destruct (comprehension_lookup_Some _ _ _ _ _ Hd Hk) as (w & Hw & ->).
        by rewrite bind_Ok.
      * by rewrite (comprehension_lookup_None _ _ _ _ Hd Hk).
    + rewrite bind_Ok in Hret.
      destruct (comprehension other (items inner)) as [d'|e] eqn:Hd';
        [|done]. injection Hret as <-. unfold getitem at 1. simpl.
      destruct item as [k|u]; [|done].
      destruct (inner !! k) as [y|] eqn:Hk.
      * destruct (comprehension_lookup_Some _ _ _ _ _ Hd' Hk)
          as (w & Hw & ->).
        unfold getitem. simpl. by rewrite Hk, bind_Ok.
      * by rewrite (comprehension_lookup_None _ _ _ _ Hd' Hk).
  - intros [ret Hret] k y Hk. unfold then_ in Hret. unfold stored in Hk.
    destruct self as [[m|f] inner]; cbn [mapping _inner_mapping] in Hret, Hk.
    + destruct (comprehension other (items m)) as [d|e] eqn:Hd; [|done].
      rewrite !bind_Ok in Hret.
      destruct (comprehension other (items inner)) as [d'|e] eqn:Hd';
        [|done].
      destruct Hk as [Hk|(m' & [= <-] & Hk)].
      * destruct (comprehension_lookup_Some _ _ _ _ _ Hd' Hk) as (w & Hw & _).
        by exists w.
      * destruct (comprehension_lookup_Some _ _ _ _ _ Hd Hk) as (w & Hw & _).
        by exists w.
    + rewrite bind_Ok in Hret.
      destruct (comprehension other (items inner)) as [d'|e] eqn:Hd';
        [|done].
      destruct Hk as [Hk|(m' & [=] & _)].
      destruct (comprehension_lookup_Some _ _ _ _ _ Hd' Hk) as (w & Hw & _).
      by exists w.
  - intros Hall.
    destruct (then_ items self other) as [ret|e] eqn:Hret; [by exists ret|].
    destruct (Hraise e eq_refl) as (k & y & Hk & Hy).
    destruct (Hall k y Hk) as [w Hw]. congruence.
Qed.

End MappingOrCallable_then.

Lemma then_composes_witness :
  ∃ ret,
    MappingOrCallable.then_ (U := unit) map_to_list
      (MappingOrCallable.init (MappingOrCallable.Mapping {[ 1 := 2 ]}))
      (MappingOrCallable.Mapping {[ 2 := 3 ]}) = Ok ret ∧
    MappingOrCallable.getitem ret (MappingOrCallable.Hashable 1) = Ok 3.
Proof.
  destruct (then_composes (K := nat) (U := unit) (V := nat) (W := nat)
              map_to_list (λ m, reflexivity _)
              (MappingOrCallable.init (MappingOrCallable.Mapping {[ 1 := 2 ]}))
              (MappingOrCallable.Mapping {[ 2 := 3 ]}))
    as (Hget & _ & Hok).
  destruct (proj2 Hok) as [ret Hret].
  - intros k y [Hk|(m & [= <-] & Hk)]; [done|].
    apply lookup_singleton_Some in Hk as [_ <-]. by exists 3.
  - exists ret. split; [exact Hret|]. by rewrite (Hget ret Hret).
Defined.

(** ** [product] *)

Lemma product_fold {A B : Type} (mul : A → B → outcome A) (xs ys : list B) :
  ∀ unit, product mul (xs ++ ys) unit
          = (u ← product mul xs unit; product mul ys u).
Proof.
  induction xs as [|x xs IH]; intros unit; [done|]. simpl.
  destruct (mul unit x) as [u|e]; [|done]. simpl. apply IH.
Qed.

(** X22: [product] is a left fold, for any operator [*]: on the empty list
    it returns the unit untouched, and the product of a concatenation is the
    product of the second list with the product of the first one as unit;
    an exception of [*] on the first list is raised without looking at the
    second. *)
Theorem product_concat {A B : Type} (mul : A → B → outcome A)
    (xs ys : list B) (unit : A) :
  product mul [] unit = Ok unit ∧
  product mul (xs ++ ys) unit = (u ← product mul xs unit; product mul ys u) ∧
  (∀ x, product mul (xs ++ [x]) unit = (u ← product mul xs unit; mul u x)) ∧
  (∀ e, product mul xs unit = Raise e → product mul (xs ++ ys) unit = Raise e).
Proof.
  split; [done|]. split; [apply product_fold|]. split.
  - intros x. rewrite product_fold. apply bind_ext. intros u _. simpl.
    by destruct (mul u x).
  - intros e He. by rewrite product_fold, He.
Qed.

Lemma product_int_unit (xs : list Z) :
  ∀ unit, product int_mul xs unit
          = Ok (unit * foldr Z.mul 1 xs)%Z.
Proof.
  induction xs as [|x xs IH]; intros unit; simpl.
  - f_equal. lia.
  - rewrite IH. f_equal. lia.
Qed.

(** X23: on integers [product] never raises, the unit is a factor of the
    result ([product(xs, unit) == unit * product(xs)]), the order of the list
    does not matter, and a zero in the list makes the result zero. *)
Theorem product_int (xs : list Z) (unit : Z) :
  ∃ p, product int_mul xs 1%Z = Ok p ∧
       product int_mul xs unit = Ok (unit * p)%Z ∧
       (∀ ys, xs ≡ₚ ys → product int_mul ys unit = Ok (unit * p)%Z) ∧
       (0%Z ∈ xs → p = 0%Z).
Proof.
  exists (foldr Z.mul 1%Z xs). rewrite !product_int_unit.
  split; [f_equal; lia|]. split; [done|]. split.
  - intros ys Hperm. rewrite product_int_unit. do 2 f_equal.
    symmetry. apply (foldr_permutation_proper eq Z.mul 1%Z); [|done].
    intros a b c. lia.
  - intros Hin. induction xs as [|x xs IH]; [by apply not_elem_of_nil in Hin|].
    simpl. apply elem_of_cons in Hin as [<-|Hin]; [done|].
    rewrite IH by done. lia.
Qed.

Lemma concat_replicate_mul {A : Type} (l : list A) (m n : nat) :
  concat (replicate n (concat (replicate m l)))
  = concat (replicate (m * n) l).
Proof.
  induction n as [|n IH]; simpl.
  - by rewrite Nat.mul_0_r.
  - rewrite IH, Nat.mul_succ_r, Nat.add_comm, replicate_add, concat_app.
    done.
Qed.

Lemma product_list_unit {A : Type} (xs : list Z) :
  ∀ l : list A,
    product list_mul xs l
    = Ok (concat (replicate (foldr (λ x n, Z.to_nat x * n) 1 xs) l)).
Proof.
  induction xs as [|x xs IH]; intros l; simpl.
  - by rewrite app_nil_r.
  - by rewrite IH, concat_replicate_mul.
Qed.

(** X24: with a list as unit, [*] repeats the list.  When no integer of
    [xs] is negative, [product(xs, unit=l) == product(xs) * l], so the result
    has [product(xs) * len(l)] elements.  With negative integers this fails:
    [product([-1, -1], unit=[42])] is empty. *)
Theorem product_list {A : Type} (xs : list Z) (l : list A) (p : Z) :
  Forall (λ x, 0 ≤ x)%Z xs → product int_mul xs 1%Z = Ok p →
  product list_mul xs l = list_mul l p ∧
  (∀ r, product list_mul xs l = Ok r →
        Z.of_nat (length r) = (p * Z.of_nat (length l))%Z) ∧
  product list_mul [-1; -1]%Z [42%Z] = Ok [] ∧
  product int_mul [-1; -1]%Z 1%Z = Ok 1%Z.
Proof.
  intros Hpos Hp. rewrite product_int_unit in Hp. injection Hp as <-.
  assert (Z.to_nat (1 * foldr Z.mul 1 xs)%Z
          = foldr (λ x n, Z.to_nat x * n) 1 xs
          ∧ (0 ≤ foldr Z.mul 1 xs)%Z) as [Hnat Hge].
  { rewrite Z.mul_1_l. induction Hpos as [|x xs Hx _ [IH1 IH2]]; simpl.
    - split; [done|lia].
    - split; [|lia]. rewrite <- IH1. lia. }
  rewrite product_list_unit. unfold list_mul. rewrite Hnat.
  split; [done|]. split; [|done].
  intros r [= <-]. rewrite <- Hnat.
  assert (∀ n, length (concat (replicate n l)) = n * length l) as Hlen.
  { induction n as [|n IH]; simpl; [done|]. rewrite length_app, IH. lia. }
  rewrite Hlen. lia.
Qed.

Lemma product_list_witness :
  product list_mul [1; 2; 3]%Z [42%Z]
  = list_mul [42%Z] 6.
Proof.
  apply (product_list [1; 2; 3]%Z [42%Z] 6%Z).
  - repeat constructor; lia.
  - reflexivity.
Defined.

(** ** [rmap] *)

Lemma data_nested_ind (P : data → Prop) :
  (∀ z, P (DInt z)) →
  (∀ xs, Forall P xs → P (DList xs)) →
  (∀ xs, Forall P xs → P (DTuple xs)) →
  (∀ kvs, Forall (λ kv, P kv.2) kvs → P (DDict kvs)) →
  ∀ d, P d.
Proof.
  intros HInt HList HTuple HDict. fix IH 1. intros [z|xs|xs|kvs].
  - apply HInt.
  - apply HList. induction xs as [|x xs IHxs]; constructor; [apply IH|done].
  - apply HTuple. induction xs as [|x xs IHxs]; constructor; [apply IH|done].
  - apply HDict. induction kvs as [|[k v] kvs IHkvs]; constructor;
      [apply IH|done].
Qed.

Lemma mapM_cons {A B : Type} (f : A → outcome B) (x : A) (xs : list A) :
  mapM f (x :: xs) = (y ← f x; ys ← mapM f xs; Ok (y :: ys)).
Proof. done. Qed.

(** [mapM] succeeds when the function does on every element, and otherwise
    raises the exception of the first element on which it raises. *)
Lemma mapM_Ok {A B : Type} (f : A → outcome B) (xs : list A) (ys : list B) :
  mapM f xs = Ok ys ↔ Forall2 (λ x y, f x = Ok y) xs ys.
Proof.
  revert ys. induction xs as [|x xs IH]; intros ys.
  - split; [intros [= <-]; constructor|]. by intros ->%Forall2_nil_inv_l.
  - rewrite mapM_cons. split.
    + destruct (f x) as [y|e] eqn:Ey; [|done]. rewrite bind_Ok.
      destruct (mapM f xs) as [ys'|e] eqn:Eys; [|done]. intros [= <-].
      constructor; [done|]. by apply IH.
    + intros (y & ys' & Hy & Hys & ->)%Forall2_cons_inv_l.
      apply IH in Hys. by rewrite Hy, Hys.
Qed.

Lemma mapM_Raise {A B : Type} (f : A → outcome B) (xs : list A) (e : exn) :
  mapM f xs = Raise e ↔
  ∃ l x r, xs = l ++ x :: r ∧ f x = Raise e ∧ Forall (λ x, ∃ y, f x = Ok y) l.
Proof.
  induction xs as [|x xs IH].
  - split; [done|]. intros (l & x & r & Hxs & _). by destruct l.
  - rewrite mapM_cons. split.
    + destruct (f x) as [y|e'] eqn:Ey.
      * rewrite bind_Ok. destruct (mapM f xs) as [ys'|e'] eqn:Eys; [done|].
        intros [= ->]. destruct (proj1 IH eq_refl) as (l & x' & r & -> & H1 & H2).
        exists (x :: l), x', r. split; [done|]. split; [done|].
        constructor; [by exists y|done].
      * intros [= ->]. exists [], x, xs. by split.
    + intros (l & x' & r & Hxs & Hx' & Hl). destruct l as [|x0 l].
      * injection Hxs as <- <-. by rewrite Hx'.
      * injection Hxs as <- ->. apply Forall_cons in Hl as [[y Hy] Hl].
        rewrite Hy, bind_Ok.
        rewrite (proj2 IH) by (exists l, x', r; done). done.
Qed.

(** X25: [rmap] with the function that returns its argument rebuilds the
    data as they are: same dict keys in the same order, same lists and
    tuples, same leaves. *)
Theorem rmap_identity (d : data) : rmap (λ z, Ok (DInt z)) d = Ok d.
Proof.
  induction d as [z|xs IH|xs IH|kvs IH] using data_nested_ind; [done|..];
    cbn [rmap].
  - rewrite (proj2 (mapM_Ok _ xs xs)); [done|].
    induction IH; by constructor.
  - rewrite (proj2 (mapM_Ok _ xs xs)); [done|].
    induction IH; by constructor.
  - rewrite (proj2 (mapM_Ok _ kvs kvs)); [done|].
    induction IH as [|[k v] kvs Hv _ IH]; constructor; [|done].
    simpl in *. by rewrite Hv.
Qed.

Lemma mapM_ok_iff {A B : Type} (f : A → outcome B) (xs : list A) :
  (∃ ys, mapM f xs = Ok ys) ↔ Forall (λ x, ∃ y, f x = Ok y) xs.
Proof.
  induction xs as [|x xs IH].
  - split; [constructor|]. by exists [].
  - rewrite mapM_cons, Forall_cons, <- IH. split.
    + intros [ys Hys]. destruct (f x) as [y|e]; [|done].
      rewrite bind_Ok in Hys. destruct (mapM f xs) as [ys'|e]; [|done].
      split; [by exists y|by exists ys'].
    + intros [[y ->] [ys ->]]. by eexists.
Qed.

Lemma bind_Ok_ex {A B : Type} (m : outcome A) (k : A → B) :
  (∃ b, (a ← m; Ok (k a)) = Ok b) ↔ ∃ a, m = Ok a.
Proof.
  destruct m as [a|e]; simpl; split; intros [x Hx]; try done; by eexists.
Qed.

Lemma bind_Raise {A B : Type} (m : outcome A) (k : A → B) (e : exn) :
  (a ← m; Ok (k a)) = Raise e ↔ m = Raise e.
Proof.
  destruct m as [a|e']; simpl; split; intros Hm; by inversion Hm.
Qed.

Lemma Forall_flat_map_iff {A : Type} (Q : A → Prop) (lv : A → list Z)
    (ok : Z → Prop) (xs : list A) :
  Forall (λ x, Q x ↔ Forall ok (lv x)) xs →
  (Forall Q xs ↔ Forall ok (flat_map lv xs)).
Proof.
  induction 1 as [|x xs Hx _ IH]; [done|]. simpl.
  by rewrite Forall_cons, Forall_app, Hx, IH.
Qed.

Lemma rmap_ok_leaves (func : Z → outcome data) (d : data) :
  (∃ d', rmap func d = Ok d') ↔ Forall (λ z, ∃ x, func z = Ok x) (leaves d).
Proof.
  induction d as [z|xs IH|xs IH|kvs IH] using data_nested_ind;
    cbn [rmap leaves].
  - by rewrite Forall_singleton.
  - rewrite bind_Ok_ex, mapM_ok_iff. by apply Forall_flat_map_iff.
  - rewrite bind_Ok_ex, mapM_ok_iff. by apply Forall_flat_map_iff.
  - rewrite bind_Ok_ex, mapM_ok_iff. apply Forall_flat_map_iff.
    eapply Forall_impl; [exact IH|]. intros [k v] <-. simpl.
    apply bind_Ok_ex.
Qed.

Lemma first_raise_flat_map {A : Type} (g : A → outcome A) (lv : A → list Z)
    (func : Z → outcome data) (xs : list A) (e : exn) :
  Forall (λ x, ((∃ y, g x = Ok y) ↔
                Forall (λ z, ∃ x, func z = Ok x) (lv x)) ∧
               (g x = Raise e →
                ∃ l z r, lv x = l ++ z :: r ∧
                  Forall (λ z, ∃ x, func z = Ok x) l ∧ func z = Raise e)) xs →
  mapM g xs = Raise e →
  ∃ l z r, flat_map lv xs = l ++ z :: r ∧
    Forall (λ z, ∃ x, func z = Ok x) l ∧ func z = Raise e.
Proof.
  intros Hxs (l & x & r & -> & Hx & Hl)%mapM_Raise.
  apply Forall_app in Hxs as [Hl' Hxs].
  apply Forall_cons in Hxs as [[_ Hx'] _].
  destruct (Hx' Hx) as (l' & z & r' & Hlv & Hok & Hz).
  exists (flat_map lv l ++ l'), z, (r' ++ flat_map lv r).
  split; [|split; [|done]].
  - by rewrite flat_map_app; simpl; rewrite Hlv, <- !app_assoc.
  - apply Forall_app. split; [|done].
    apply Forall_flat_map_iff with (Q := λ x, ∃ y, g x = Ok y); [|done].
    eapply Forall_impl; [exact Hl'|]. by intros a [Ha _].
Qed.

Lemma rmap_raise_leaves (func : Z → outcome data) (e : exn) (d : data) :
  rmap func d = Raise e →
  ∃ l z r, leaves d = l ++ z :: r ∧
    Forall (λ z, ∃ x, func z = Ok x) l ∧ func z = Raise e.
Proof.
  induction d as [z|xs IH|xs IH|kvs IH] using data_nested_ind;
    cbn [rmap leaves].
  - intros Hz. exists [], z, []. by repeat split.
  - rewrite bind_Raise. apply first_raise_flat_map.
    eapply Forall_impl; [exact IH|]. intros x Hx. split; [|done].
    apply rmap_ok_leaves.
  - rewrite bind_Raise. apply first_raise_flat_map.
    eapply Forall_impl; [exact IH|]. intros x Hx. split; [|done].
    apply rmap_ok_leaves.
  - rewrite bind_Raise.
    apply (first_raise_flat_map
             (λ kv, value ← rmap func kv.2; Ok (kv.1, value))
             (λ kv, leaves kv.2)).
    eapply Forall_impl; [exact IH|]. intros [k v] Hv. simpl in *. split.
    + rewrite bind_Ok_ex. apply rmap_ok_leaves.
    + by rewrite bind_Raise.
Qed.

Lemma first_failure_unique {A : Type} (ok : A → Prop) (l l' r r' : list A)
    (z z' : A) :
  l ++ z :: r = l' ++ z' :: r' →
  Forall ok l → ¬ ok z → Forall ok l' → ¬ ok z' → z = z'.
Proof.
  revert l'. induction l as [|a l IH]; intros [|a' l'] Heq Hl Hz Hl' Hz'.
  - by injection Heq.
  - injection Heq as -> _. apply Forall_cons in Hl' as [? _]. done.
  - injection Heq as <- _. apply Forall_cons in Hl as [? _]. done.
  - injection Heq as _ Heq. apply Forall_cons in Hl as [_ Hl].
    apply Forall_cons in Hl' as [_ Hl']. by apply (IH l').
Qed.

(** X26: [rmap] returns exactly when [func] returns on every leaf of the
    data, and otherwise it raises the exception that [func] raises on the
    first leaf, in the order of the traversal, on which it raises. *)
Theorem rmap_raises (func : Z → outcome data) (d : data) :
  ((∃ d', rmap func d = Ok d') ↔
   Forall (λ z, ∃ x, func z = Ok x) (leaves d)) ∧
  (∀ e, rmap func d = Raise e ↔
     ∃ l z r, leaves d = l ++ z :: r ∧
       Forall (λ z, ∃ x, func z = Ok x) l ∧ func z = Raise e).
Proof.
  split; [apply rmap_ok_leaves|]. intros e.
  split; [apply rmap_raise_leaves|].
  intros (l & z & r & Hd & Hl & Hz).
  destruct (rmap func d) as [d'|e'] eqn:Hrmap.
  - assert (Forall (λ z, ∃ x, func z = Ok x) (leaves d)) as Hall
      by (apply rmap_ok_leaves; by exists d').
    rewrite Hd in Hall. apply Forall_app in Hall as [_ Hall].
    apply Forall_cons in Hall as [[x Hx] _]. congruence.
  - apply rmap_raise_leaves in Hrmap as (l' & z' & r' & Hd' & Hl' & Hz').
    rewrite Hd in Hd'.
    assert (z = z') as <-; [|congruence].
    apply (first_failure_unique (λ z, ∃ x, func z = Ok x) l l' r r');
      try done; intros [x Hx]; congruence.
Qed.

Lemma mapM_fusion {A : Type} (f g h : A → outcome A) (xs ys : list A) :
  Forall (λ x, ∀ y, f x = Ok y → g y = h x) xs →
  mapM f xs = Ok ys → mapM g ys = mapM h xs.
Proof.
  intros Hxs Hys. apply mapM_Ok in Hys.
  induction Hys as [|x y xs ys Hy _ IH]; [done|].
  apply Forall_cons in Hxs as [Hx Hxs].
  by rewrite !mapM_cons, (Hx y Hy), IH.
Qed.

(** X27: two passes of [rmap] can be done in one.  When [rmap(f, data)]
    returns, applying [rmap(g, ...)] to its result is the same as one pass
    with the function that applies [f] to a leaf and then [rmap(g, ...)] to
    what [f] returned: same result, or same exception. *)
Theorem rmap_fusion (f g : Z → outcome data) (d d' : data) :
  rmap f d = Ok d' →
  rmap g d' = rmap (λ z, x ← f z; rmap g x) d.
Proof.
  revert d'.
  induction d as [z|xs IH|xs IH|kvs IH] using data_nested_ind; intros d';
    cbn [rmap].
  - by intros ->.
  - destruct (mapM (rmap f) xs) as [ys|e] eqn:Hys; [|done].
    intros [= <-]. cbn [rmap].
    by rewrite (mapM_fusion (rmap f) (rmap g)
                  (rmap (λ z, x ← f z; rmap g x)) xs ys IH Hys).
  - destruct (mapM (rmap f) xs) as [ys|e] eqn:Hys; [|done].
    intros [= <-]. cbn [rmap].
    by rewrite (mapM_fusion (rmap f) (rmap g)
                  (rmap (λ z, x ← f z; rmap g x)) xs ys IH Hys).
  - destruct (mapM _ kvs) as [ys|e] eqn:Hys; [|done].
    intros [= <-]. cbn [rmap].
    rewrite (mapM_fusion (λ kv, value ← rmap f kv.2; Ok (kv.1, value))
               (λ kv, value ← rmap g kv.2; Ok (kv.1, value))
               (λ kv, value ← rmap (λ z, x ← f z; rmap g x) kv.2;
                      Ok (kv.1, value)) kvs ys); [done| |done].
    eapply Forall_impl; [exact IH|]. intros [k v] Hv [k' v']. simpl.
    destruct (rmap f v) as [w|e] eqn:Hw; [|done]. intros [= <- <-].
    by rewrite (Hv w).
Qed.

Lemma rmap_fusion_witness :
  rmap (λ z, Ok (DInt (z * 2))) (DList [DInt 2; DInt 3])
  = rmap (λ z, x ← Ok (DInt (z + 1)); rmap (λ z, Ok (DInt (z * 2))) x)
      (DList [DInt 1; DInt 2]).
Proof.
  apply (rmap_fusion (λ z, Ok (DInt (z + 1))) (λ z, Ok (DInt (z * 2)))
           (DList [DInt 1; DInt 2]) (DList [DInt 2; DInt 3])).
  reflexivity.
Defined.
